(** * The quiz-question extraction pipeline of [server.js]

    A shallow embedding of [parseMCQQuestions] and
    [createFallbackQuestionsFromText] (src/server.js, lines 240-374) together
    with the pieces of the JavaScript runtime they call: strings as sequences
    of UTF-16 code units, the backtracking regular-expression matcher,
    [String.prototype.split / trim / includes / replace], [JSON.parse] and the
    random source behind [Math.random]. *)

From Stdlib Require Import String Ascii DecimalString.
From Stdlib Require Import List NArith ZArith Bool Arith Lia.
Import ListNotations.

Set Implicit Arguments.

(** ** Strings *)

(** A JavaScript string is a finite sequence of 16-bit code units. *)
Definition char := N.
Definition jsstring := list char.

Definition lit (s : string) : jsstring :=
  map N_of_ascii (list_ascii_of_string s).

(** [quoted] reads an apostrophe as a double quote, so that JSON text can be
    written down legibly. *)
Definition quoted (s : string) : jsstring :=
  map (fun c => if N.eqb c 39 then 34%N else c) (lit s).

Definition nl : char := 10%N.

(** The lines of a text, joined by line feeds. *)
Fixpoint unlines (ls : list string) : jsstring :=
  match ls with
  | [] => []
  | [l] => lit l
  | l :: ls' => lit l ++ nl :: unlines ls'
  end.

Fixpoint str_eqb (a b : jsstring) : bool :=
  match a, b with
  | [], [] => true
  | x :: a', y :: b' => N.eqb x y && str_eqb a' b'
  | _, _ => false
  end.

(** *** Character classes *)

Definition in_range (lo hi c : N) : bool := N.leb lo c && N.leb c hi.

(** [WhiteSpace] and [LineTerminator] of ECMAScript: what [\s] matches and
    what [trim] strips. *)
Definition is_ws (c : char) : bool :=
  in_range 9 13 c || N.eqb c 32 || N.eqb c 160 || N.eqb c 5760
  || in_range 8192 8202 c || N.eqb c 8232 || N.eqb c 8233 || N.eqb c 8239
  || N.eqb c 8287 || N.eqb c 12288 || N.eqb c 65279.

Definition is_line_terminator (c : char) : bool :=
  N.eqb c 10 || N.eqb c 13 || N.eqb c 8232 || N.eqb c 8233.

Definition is_digit (c : char) : bool := in_range 48 57 c.

Definition is_word (c : char) : bool :=
  in_range 97 122 c || in_range 65 90 c || is_digit c || N.eqb c 95.

Definition is_char (a : ascii) (c : char) : bool := N.eqb c (N_of_ascii a).

Definition one_of (s : string) (c : char) : bool :=
  existsb (N.eqb c) (lit s).

(** ASCII case folding.  Without the [u] flag, a pattern letter of an [/i]
    regular expression matches exactly its two ASCII cases: canonicalisation
    never maps a code unit of 128 or more to one below 128. *)
Definition ascii_lower (c : char) : char :=
  if in_range 65 90 c then (c + 32)%N else c.

(** *** String methods *)

Fixpoint drop_ws (s : jsstring) : jsstring :=
  match s with
  | c :: t => if is_ws c then drop_ws t else s
  | [] => []
  end.

(** [String.prototype.trim] *)
Definition trim (s : jsstring) : jsstring :=
  rev (drop_ws (rev (drop_ws s))).

Fixpoint prefixb (p s : jsstring) : bool :=
  match p, s with
  | [], _ => true
  | x :: p', y :: s' => N.eqb x y && prefixb p' s'
  | _ :: _, [] => false
  end.

(** [String.prototype.includes] *)
Fixpoint includes (s p : jsstring) : bool :=
  prefixb p s || match s with [] => false | _ :: t => includes t p end.

(** [String.prototype.endsWith] *)
Definition endsWith (s p : jsstring) : bool := prefixb (rev p) (rev s).

(** [String.prototype.split] with a string separator: [skip] counts the code
    units of a separator still to be passed over, [cur] is the piece being
    collected (reversed). *)
Fixpoint split_go (sep : jsstring) (skip : nat) (cur s : jsstring)
  : list jsstring :=
  match s with
  | [] => [rev cur]
  | c :: t =>
      match skip with
      | S k => split_go sep k cur t
      | O =>
          if prefixb sep s
          then rev cur :: split_go sep (length sep - 1) [] t
          else split_go sep 0 (c :: cur) t
      end
  end.

Definition split_str (s sep : jsstring) : list jsstring :=
  match sep with
  | [] => map (fun c => [c]) s
  | _ => split_go sep 0 [] s
  end.

(** [Array.prototype.join] *)
Fixpoint join (sep : jsstring) (l : list jsstring) : jsstring :=
  match l with
  | [] => []
  | [x] => x
  | x :: l' => x ++ sep ++ join sep l'
  end.

(** [Array.prototype.slice] with [0 <= a]. *)
Definition slice {A} (l : list A) (a b : nat) : list A :=
  firstn (b - a) (skipn a l).

(** [Array.prototype.indexOf]: the first position holding [x], or [-1]. *)
Fixpoint indexOf (l : list jsstring) (x : jsstring) : Z :=
  match l with
  | [] => (-1)%Z
  | y :: l' =>
      if str_eqb y x then 0%Z
      else let i := indexOf l' x in
           if (i <? 0)%Z then (-1)%Z else (i + 1)%Z
  end.

(** [Array.prototype.splice (pos, 0, x)]: insertion, the position clamped to
    the length. *)
Definition splice_insert {A} (l : list A) (pos : nat) (x : A) : list A :=
  firstn pos l ++ x :: skipn pos l.

(** Decimal rendering of a number inside a template literal. *)
Definition decimal (n : nat) : jsstring :=
  lit (NilEmpty.string_of_uint (Nat.to_uint n)).

(** ** Regular expressions *)

(** The fragment of ECMAScript patterns used by the program.  A character
    class is its membership test; [r+] is [Seq r (Star g r)], [r?] is
    [Alt r Eps] and [r{4,}] is four copies of [r] followed by [Star true r].
    No pattern of the program has a capture group under a quantifier, nor a
    quantified sub-pattern that can match the empty string. *)
Inductive regex : Type :=
| Eps
| Chr (p : char -> bool)
| Seq (a b : regex)
| Alt (a b : regex)
| Star (greedy : bool) (a : regex)
| Group (n : nat) (a : regex)
| Bol
| Eol
| WordB
| Look (a : regex).

Definition Plus (greedy : bool) (a : regex) : regex := Seq a (Star greedy a).
Definition Opt (a : regex) : regex := Alt a Eps.

Fixpoint Lit (s : jsstring) : regex :=
  match s with
  | [] => Eps
  | c :: t => Seq (Chr (N.eqb c)) (Lit t)
  end.

(** The same under the [i] flag. *)
Fixpoint LitI (s : jsstring) : regex :=
  match s with
  | [] => Eps
  | c :: t => Seq (Chr (fun x => N.eqb (ascii_lower x) (ascii_lower c))) (LitI t)
  end.

(** A matcher state: the code units before the current position (nearest
    first), those from the current position on, and the captures so far. *)
Record mstate : Type := MState {
  seen : jsstring;
  rest : jsstring;
  caps : list (nat * jsstring)
}.

(** What was consumed between two states of one run. *)
Definition consumed (s s' : mstate) : jsstring :=
  firstn (length (rest s) - length (rest s')) (rest s).

Definition set_cap (n : nat) (w : jsstring) (s : mstate) : mstate :=
  MState (seen s) (rest s) ((n, w) :: caps s).

Fixpoint get_cap (n : nat) (cs : list (nat * jsstring)) : option jsstring :=
  match cs with
  | [] => None
  | (m, w) :: cs' => if Nat.eqb m n then Some w else get_cap n cs'
  end.

Definition at_word (s : jsstring) : bool :=
  match s with c :: _ => is_word c | [] => false end.

Definition orelse {A} (x y : option A) : option A :=
  match x with Some _ => x | None => y end.

Definition cont := mstate -> option mstate.

(** The iteration of [r*] and [r*?].  An iteration that consumes nothing is
    rejected, as RepeatMatcher does, so the remaining input bounds the number
    of iterations. *)
Fixpoint star (greedy : bool) (step : cont -> cont) (fuel : nat) (k : cont)
  (s : mstate) : option mstate :=
  match fuel with
  | O => k s
  | S f =>
      let again :=
        step (fun s' =>
                if length (rest s') <? length (rest s)
                then star greedy step f k s' else None) s in
      if greedy then orelse again (k s) else orelse (k s) again
  end.

(** The backtracking matcher, in continuation-passing style as in the
    language definition: [rmatch r k s] matches [r] at [s] and hands the state
    reached to [k], trying the alternatives in priority order until [k]
    accepts. *)
Fixpoint rmatch (r : regex) (k : cont) (s : mstate) : option mstate :=
  match r with
  | Eps => k s
  | Chr p =>
      match rest s with
      | c :: t => if p c then k (MState (c :: seen s) t (caps s)) else None
      | [] => None
      end
  | Seq a b => rmatch a (rmatch b k) s
  | Alt a b => orelse (rmatch a k s) (rmatch b k s)
  | Star g a => star g (rmatch a) (S (length (rest s))) k s
  | Group n a => rmatch a (fun s' => k (set_cap n (consumed s s') s')) s
  | Bol => match seen s with [] => k s | _ :: _ => None end
  | Eol => match rest s with [] => k s | _ :: _ => None end
  | WordB => if xorb (at_word (seen s)) (at_word (rest s)) then k s else None
  | Look a =>
      match rmatch a Some s with
      | Some s' => k (MState (seen s) (rest s) (caps s'))
      | None => None
      end
  end.

(** One attempt at a fixed position, and the search for the leftmost match
    from a position on ([RegExpBuiltinExec]).  A match is the pair of the
    states where it starts and where it ends. *)
Definition match_at (r : regex) (sn rs : jsstring) : option (mstate * mstate) :=
  match rmatch r Some (MState sn rs []) with
  | Some e => Some (MState sn rs [], e)
  | None => None
  end.

Fixpoint search_from (r : regex) (sn rs : jsstring)
  : option (mstate * mstate) :=
  match match_at r sn rs with
  | Some m => Some m
  | None =>
      match rs with
      | [] => None
      | c :: t => search_from r (c :: sn) t
      end
  end.

Definition matched (m : mstate * mstate) : jsstring :=
  consumed (fst m) (snd m).

Definition group (n : nat) (m : mstate * mstate) : jsstring :=
  match get_cap n (caps (snd m)) with Some w => w | None => [] end.

(** [s.match(r)] for a pattern without the [g] flag. *)
Definition regex_match (r : regex) (s : jsstring) : option (mstate * mstate) :=
  search_from r [] s.

(** Successive matches under the [g] flag ([matchAll], and [match] with a
    global pattern): the next search starts where the last match ended, one
    code unit further after an empty match. *)
Fixpoint match_all_go (fuel : nat) (r : regex) (sn rs : jsstring)
  : list (mstate * mstate) :=
  match fuel with
  | O => []
  | S f =>
      match search_from r sn rs with
      | None => []
      | Some m =>
          m ::
          (if length (rest (snd m)) <? length (rest (fst m))
           then match_all_go f r (seen (snd m)) (rest (snd m))
           else match rest (snd m) with
                | [] => []
                | c :: t => match_all_go f r (c :: seen (snd m)) t
                end)
      end
  end.

Definition matchAll (r : regex) (s : jsstring) : list (mstate * mstate) :=
  match_all_go (S (length s)) r [] s.

(** [s.replace(r, repl)] for a pattern without the [g] flag and a
    replacement without [$]. *)
Definition regex_replace (r : regex) (repl s : jsstring) : jsstring :=
  match regex_match r s with
  | Some m => rev (seen (fst m)) ++ repl ++ rest (snd m)
  | None => s
  end.

(** [s.split(r)] for a pattern without capture groups.  [cur] is the piece
    being collected (reversed), [skip] the rest of a separator just matched.
    A separator is looked for at every position but the end of the string;
    an empty match directly after the previous separator does not split. *)
Fixpoint rsplit_go (r : regex) (skip : nat) (cur sn rs : jsstring)
  : list jsstring :=
  match rs with
  | [] => [rev cur]
  | c :: t =>
      match skip with
      | S k => rsplit_go r k cur (c :: sn) t
      | O =>
          match match_at r sn rs with
          | Some m =>
              match length (matched m), cur with
              | O, [] => rsplit_go r 0 [c] (c :: sn) t
              | O, _ :: _ => rev cur :: rsplit_go r 0 [c] (c :: sn) t
              | S k, _ => rev cur :: rsplit_go r k [] (c :: sn) t
              end
          | None => rsplit_go r 0 (c :: cur) (c :: sn) t
          end
      end
  end.

Definition regex_split (r : regex) (s : jsstring) : list jsstring :=
  match s with
  | [] => match match_at r [] [] with Some _ => [] | None => [[]] end
  | _ => rsplit_go r 0 [] [] s
  end.

(** ** JSON values and [JSON.parse] *)

(** A number is kept as the exact decimal [m * 10^e] its literal denotes,
    normalised so that [m] has no trailing zero; the rounding to a double and
    the sign of zero are not modelled.  An object is the list of its
    properties in creation order. *)
#[warnings="-register-all"]
Inductive json : Type :=
| JNull
| JBool (b : bool)
| JNum (m e : Z)
| JStr (s : jsstring)
| JArr (l : list json)
| JObj (fields : list (jsstring * json)).

Fixpoint get_field (k : jsstring) (fs : list (jsstring * json)) : option json :=
  match fs with
  | [] => None
  | (k', v) :: fs' => if str_eqb k' k then Some v else get_field k fs'
  end.

(** Defining a property that already exists replaces its value in place. *)
Fixpoint set_field (k : jsstring) (v : json) (fs : list (jsstring * json))
  : list (jsstring * json) :=
  match fs with
  | [] => [(k, v)]
  | (k', v') :: fs' =>
      if str_eqb k' k then (k', v) :: fs' else (k', v') :: set_field k v fs'
  end.

Module Json.

Definition is_jws (c : char) : bool :=
  N.eqb c 9 || N.eqb c 10 || N.eqb c 13 || N.eqb c 32.

Fixpoint skip_ws (s : jsstring) : jsstring :=
  match s with
  | c :: t => if is_jws c then skip_ws t else s
  | [] => []
  end.

Definition hex_digit (c : char) : option N :=
  if in_range 48 57 c then Some (c - 48)%N
  else if in_range 97 102 c then Some (c - 87)%N
  else if in_range 65 70 c then Some (c - 55)%N
  else None.

Definition hex4 (a b c d : char) : option char :=
  match hex_digit a, hex_digit b, hex_digit c, hex_digit d with
  | Some x, Some y, Some z, Some w =>
      Some (((x * 16 + y) * 16 + z) * 16 + w)%N
  | _, _, _, _ => None
  end.

(** The single-character escapes: quote, backslash, slash, b, f, n, r, t. *)
Definition escape (c : char) : option char :=
  if N.eqb c 34 then Some 34%N
  else if N.eqb c 92 then Some 92%N
  else if N.eqb c 47 then Some 47%N
  else if N.eqb c 98 then Some 8%N
  else if N.eqb c 102 then Some 12%N
  else if N.eqb c 110 then Some 10%N
  else if N.eqb c 114 then Some 13%N
  else if N.eqb c 116 then Some 9%N
  else None.

(** The characters of a string literal, after its opening quote. *)
Fixpoint string_body (acc s : jsstring) : option (jsstring * jsstring) :=
  match s with
  | [] => None
  | c :: t =>
      if N.eqb c 34 then Some (rev acc, t)
      else if N.eqb c 92 then
        match t with
        | e :: t1 =>
            if N.eqb e 117 then
              match t1 with
              | h1 :: h2 :: h3 :: h4 :: t2 =>
                  match hex4 h1 h2 h3 h4 with
                  | Some u => string_body (u :: acc) t2
                  | None => None
                  end
              | _ => None
              end
            else
              match escape e with
              | Some u => string_body (u :: acc) t1
              | None => None
              end
        | [] => None
        end
      else if N.ltb c 32 then None
      else string_body (c :: acc) t
  end.

Fixpoint digits (s : jsstring) : jsstring * jsstring :=
  match s with
  | c :: t =>
      if is_digit c then let (d, r) := digits t in (c :: d, r) else ([], s)
  | [] => ([], [])
  end.

Definition digits_value (d : jsstring) : Z :=
  fold_left (fun a c => (a * 10 + Z.of_N (c - 48))%Z) d 0%Z.

Fixpoint normalise (fuel : nat) (m e : Z) : Z * Z :=
  match fuel with
  | O => (m, e)
  | S f =>
      if (m =? 0)%Z then (0%Z, 0%Z)
      else if (m mod 10 =? 0)%Z then normalise f (m / 10)%Z (e + 1)%Z
      else (m, e)
  end.

(** [-? int frac? exp?], where [int] has no superfluous leading zero. *)
Definition number (s : jsstring) : option (json * jsstring) :=
  let (neg, s0) :=
    match s with
    | c :: t => if N.eqb c 45 then (true, t) else (false, s)
    | [] => (false, s)
    end in
  let (ip, s1) := digits s0 in
  let int_ok :=
    match ip with
    | [] => false
    | [_] => true
    | c :: _ => negb (N.eqb c 48)
    end in
  if negb int_ok then None else
  let frac :=
    match s1 with
    | c :: t =>
        if N.eqb c 46 then
          match digits t with
          | ([], _) => None
          | (fp, s2) => Some (fp, s2)
          end
        else Some ([], s1)
    | [] => Some ([], s1)
    end in
  match frac with
  | None => None
  | Some (fp, s2) =>
      let expo :=
        match s2 with
        | c :: t =>
            if N.eqb c 101 || N.eqb c 69 then
              let (eneg, t') :=
                match t with
                | x :: t0 =>
                    if N.eqb x 45 then (true, t0)
                    else if N.eqb x 43 then (false, t0)
                    else (false, t)
                | [] => (false, t)
                end in
              match digits t' with
              | ([], _) => None
              | (ep, s3) =>
                  Some ((if eneg then - digits_value ep
                         else digits_value ep)%Z, s3)
              end
            else Some (0%Z, s2)
        | [] => Some (0%Z, s2)
        end in
      match expo with
      | None => None
      | Some (ex, s3) =>
          let m := digits_value (ip ++ fp) in
          let (m', e') :=
            normalise (S (length (ip ++ fp)))
                      (if neg then - m else m)%Z
                      (ex - Z.of_nat (length fp))%Z in
          Some (JNum m' e', s3)
      end
  end.

Section Composite.
(** The parser of a nested value. *)
Variable value : jsstring -> option (json * jsstring).

(** The elements of a non-empty array, up to and including its [\]]. *)
Fixpoint elements (fuel : nat) (s : jsstring)
  : option (list json * jsstring) :=
  match fuel with
  | O => None
  | S f =>
      match value s with
      | Some (v, s1) =>
          match skip_ws s1 with
          | c :: s2 =>
              if N.eqb c 44 then
                match elements f s2 with
                | Some (vs, s3) => Some (v :: vs, s3)
                | None => None
                end
              else if N.eqb c 93 then Some ([v], s2)
              else None
          | [] => None
          end
      | None => None
      end
  end.

(** The members of a non-empty object, up to and including its [}]. *)
Fixpoint members (fuel : nat) (acc : list (jsstring * json)) (s : jsstring)
  : option (list (jsstring * json) * jsstring) :=
  match fuel with
  | O => None
  | S f =>
      match skip_ws s with
      | q :: s0 =>
          if N.eqb q 34 then
            match string_body [] s0 with
            | Some (k, s1) =>
                match skip_ws s1 with
                | c :: s2 =>
                    if N.eqb c 58 then
                      match value s2 with
                      | Some (v, s3) =>
                          let acc' := set_field k v acc in
                          match skip_ws s3 with
                          | d :: s4 =>
                              if N.eqb d 44 then members f acc' s4
                              else if N.eqb d 125 then Some (acc', s4)
                              else None
                          | [] => None
                          end
                      | None => None
                      end
                    else None
                | [] => None
                end
            | None => None
            end
          else None
      | [] => None
      end
  end.
End Composite.

Definition keyword (w : string) (v : json) (s : jsstring)
  : option (json * jsstring) :=
  if prefixb (lit w) s then Some (v, skipn (length (lit w)) s) else None.

(** A value, leading white space allowed.  Every level of nesting consumes
    a bracket, so fuel beyond the length of the text is never used up. *)
Fixpoint value (fuel : nat) (s : jsstring) : option (json * jsstring) :=
  match fuel with
  | O => None
  | S f =>
      match skip_ws s with
      | [] => None
      | c :: t =>
          if N.eqb c 91 then
            match skip_ws t with
            | d :: t' =>
                if N.eqb d 93 then Some (JArr [], t')
                else
                  match elements (value f) (S (length t)) t with
                  | Some (vs, s1) => Some (JArr vs, s1)
                  | None => None
                  end
            | [] => None
            end
          else if N.eqb c 123 then
            match skip_ws t with
            | d :: t' =>
                if N.eqb d 125 then Some (JObj [], t')
                else
                  match members (value f) (S (length t)) [] t with
                  | Some (fs, s1) => Some (JObj fs, s1)
                  | None => None
                  end
            | [] => None
            end
          else if N.eqb c 34 then
            match string_body [] t with
            | Some (w, s1) => Some (JStr w, s1)
            | None => None
            end
          else if N.eqb c 110 then keyword "null" JNull (c :: t)
          else if N.eqb c 116 then keyword "true" (JBool true) (c :: t)
          else if N.eqb c 102 then keyword "false" (JBool false) (c :: t)
          else number (c :: t)
      end
  end.

(** [JSON.parse]: [None] stands for the [SyntaxError] it throws. *)
Definition parse (s : jsstring) : option json :=
  match value (S (length s)) s with
  | Some (v, r) =>
      match skip_ws r with
      | [] => Some v
      | _ :: _ => None
      end
  | None => None
  end.

End Json.

Definition JSON_parse := Json.parse.

(** ** The program *)

Declare Scope regex_scope.
Delimit Scope regex_scope with re.
Notation "a ;; b" := (Seq a b) (at level 61, right associativity) : regex_scope.

Definition ws : regex := Chr is_ws.
Definition digit : regex := Chr is_digit.
Definition word : regex := Chr is_word.
Definition dot : regex := Chr (fun c => negb (is_line_terminator c)).
Definition anything : regex := Chr (fun c => is_ws c || negb (is_ws c)).
Definition letterAD : regex := Chr (in_range 65 68).

(** [jsonRegex], line 242:
    [/ \[ \s* \{ \s* "question" [\s\S]* \} \s* \] /] *)
Definition jsonRegex : regex :=
  (Chr (is_char "[") ;; Star true ws ;; Chr (is_char "{") ;; Star true ws ;;
   Lit (quoted "'question'") ;; Star true anything ;;
   Chr (is_char "}") ;; Star true ws ;; Chr (is_char "]"))%re.

(** [questionRegex], line 253 (here with blanks between its parts):
    [/ (?:^|\n) (?: \d+ \. \s* ) ( [^?]+ \? ) /g] *)
Definition questionRegex : regex :=
  (Alt Bol (Chr (N.eqb nl)) ;;
   (Plus true digit ;; Chr (is_char ".") ;; Star true ws) ;;
   Group 1 (Plus true (Chr (fun c => negb (is_char "?" c))) ;;
            Chr (is_char "?")))%re.

(** The separator of line 258: [/ (?: \d+ \. \s* ) | (?: \n \s* \n ) /] *)
Definition zoneEndRegex : regex :=
  Alt (Plus true digit ;; Chr (is_char ".") ;; Star true ws)%re
      (Chr (N.eqb nl) ;; Star true ws ;; Chr (N.eqb nl))%re.

(** [optionRegex], line 262:
    [/ (?:^|\n) (?: [A-D] \. \s* ) ( .+? ) (?= \n [A-D] \. | $ ) /g] *)
Definition optionRegex : regex :=
  (Alt Bol (Chr (N.eqb nl)) ;;
   (letterAD ;; Chr (is_char ".") ;; Star true ws) ;;
   Group 1 (Plus false dot) ;;
   Look (Alt (Chr (N.eqb nl) ;; letterAD ;; Chr (is_char ".")) Eol))%re.

(** The pattern of lines 271-280 for a letter [L]:
    [/ correct (?: \s* answer )? (?: \s* is )? (?: \s* : )? \s* L /i] *)
Definition correctRegex (letter : string) : regex :=
  (LitI (lit "correct") ;;
   Opt (Star true ws ;; LitI (lit "answer")) ;;
   Opt (Star true ws ;; LitI (lit "is")) ;;
   Opt (Star true ws ;; Chr (is_char ":")) ;;
   Star true ws ;; LitI (lit letter))%re.

(** The separator of line 309: [/ [.?!] \s+ /] *)
Definition sentenceEndRegex : regex :=
  (Chr (one_of ".?!") ;; Plus true ws)%re.

(** The separator of lines 318 and 322: [/ \s+ /] *)
Definition spacesRegex : regex := Plus true ws.

(** The pattern of line 327: [/ [,.?!:;] $ /] *)
Definition trailingPunctRegex : regex := (Chr (one_of ",.?!:;") ;; Eol)%re.

(** The pattern of line 342: [/ \b \w{4,} \b /g] *)
Definition longWordRegex : regex :=
  (WordB ;; word ;; word ;; word ;; word ;; Star true word ;; WordB)%re.

(** A question record, [{question, options, correctAnswer}]. *)
Record Question : Type := mkQuestion {
  question : jsstring;
  options : list jsstring;
  correctAnswer : Z
}.

(** The record as the JavaScript value the caller receives. *)
Definition to_json (q : Question) : json :=
  JObj [ (lit "question", JStr (question q));
         (lit "options", JArr (map JStr (options q)));
         (lit "correctAnswer", JNum (correctAnswer q) 0) ].

(** What a block of statements does: complete normally or throw. *)
Inductive outcome (A : Type) : Type :=
| Normal (a : A)
| Throw.
Arguments Throw {A}.

(** *** The JSON-array tier (lines 242-250) *)

(** [Some l]: the tier returns [l]; [None]: it falls through.  The text the
    pattern matches starts with a bracket, so what [JSON.parse] returns for it
    is an array (lemma [jsonRegex_parses_to_array] below) and [.length] and
    [.slice] are those of arrays. *)
Definition jsonTier (mcqText : jsstring) : outcome (option (list json)) :=
  match regex_match jsonRegex mcqText with
  | Some m =>
      match JSON_parse (matched m) with
      | None => Throw
      | Some (JArr parsedQuestions) =>
          if 10 <=? length parsedQuestions
          then Normal (Some (slice parsedQuestions 0 10))
          else Normal None
      | Some _ => Normal None
      end
  | None => Normal None
  end.

(** *** The structured-text tier (lines 252-296) *)

(** [mcqText.split(questionText)[1]?.split(zoneEnd)[0]] *)
Definition optionsZone (mcqText questionText : jsstring) : option jsstring :=
  match nth_error (split_str mcqText questionText) 1 with
  | Some after => nth_error (regex_split zoneEndRegex after) 0
  | None => None
  end.

(** One disjunct chain of lines 270-281, for the letter [L]. *)
Definition marked (optionsText : jsstring) (letter : string) : bool :=
  includes optionsText (lit "Correct: " ++ lit letter)
  || includes optionsText (lit "correct: " ++ lit letter)
  || match regex_match (correctRegex letter) optionsText with
     | Some _ => true
     | None => false
     end.

Definition findCorrectAnswer (optionsText : jsstring) : Z :=
  if marked optionsText "A" then 0%Z
  else if marked optionsText "B" then 1%Z
  else if marked optionsText "C" then 2%Z
  else if marked optionsText "D" then 3%Z
  else 0%Z.

Definition parseOptions (optionsText : jsstring) : list jsstring :=
  map (fun optionMatch => trim (group 1 optionMatch))
      (matchAll optionRegex optionsText).

(** The body of the loop at line 256: the questions after this match. *)
Definition questionStep (mcqText : jsstring) (questionMatch : mstate * mstate)
  (questions : list Question) : list Question :=
  let questionText := trim (group 1 questionMatch) in
  match optionsZone mcqText questionText with
  | Some ((_ :: _) as optionsText) =>
      let options := parseOptions optionsText in
      let correctAnswer := findCorrectAnswer optionsText in
      if 4 <=? length options
      then questions ++ [mkQuestion questionText (slice options 0 4) correctAnswer]
      else questions
  | Some [] | None => questions
  end.

Fixpoint questionLoop (mcqText : jsstring)
  (questionMatches : list (mstate * mstate)) (questions : list Question)
  : list Question :=
  match questionMatches with
  | [] => questions
  | m :: ms =>
      if length questions <? 10
      then questionLoop mcqText ms (questionStep mcqText m questions)
      else questions
  end.

(** The array [questions] when the loop is over (line 293). *)
Definition structuredQuestions (mcqText : jsstring) : list Question :=
  questionLoop mcqText (matchAll questionRegex mcqText) [].

(** *** The heuristic fallback (lines 306-374) and the whole function *)

Section Pipeline.

(** [String.prototype.toLowerCase], whose Unicode case tables are not part
    of the program: every result below holds for any such function. *)
Variable toLowerCase : jsstring -> jsstring.

(** The random source: [random i] decides the [i]-th call of
    [Math.random].  A computation threads the number of calls made. *)
Variable random : nat -> nat.

Definition Rand (A : Type) : Type := nat -> A * nat.

Definition ret {A} (a : A) : Rand A := fun n => (a, n).

Definition bind {A B} (m : Rand A) (f : A -> Rand B) : Rand B :=
  fun n => let (a, n') := m n in f a n'.

Notation "'let*' x ':=' m 'in' k" := (bind m (fun x => k))
  (at level 10, x name, k at level 200).

(** [Math.floor(Math.random() * n)]: some number below [n]. *)
Definition randomBelow (n : nat) : Rand nat :=
  fun i => (random i mod n, S i).

(** Lines 323-334: the first option a sentence yields, scanning its words
    from index [k] on ([todo] is [words] from [k]). *)
Fixpoint scanWords (wordsToAvoid options words : list jsstring) (k : nat)
  (todo : list jsstring) : option jsstring :=
  match todo with
  | [] => None
  | w :: todo' =>
      if (4 <? length w)
         && negb (existsb (str_eqb (toLowerCase w)) wordsToAvoid)
      then
        let startIdx := Nat.max 0 (k - 2) in
        let endIdx := Nat.min (length words) (k + 3) in
        let option :=
          regex_replace trailingPunctRegex []
            (join (lit " ") (slice words startIdx endIdx)) in
        if (5 <? length option) && negb (existsb (str_eqb option) options)
        then Some option
        else scanWords wordsToAvoid options words (S k) todo'
      else scanWords wordsToAvoid options words (S k) todo'
  end.

(** The loop of line 320 from index [j] on. *)
Fixpoint harvest (wordsToAvoid : list jsstring) (i j : nat)
  (todo options : list jsstring) : list jsstring :=
  match todo with
  | [] => options
  | sj :: todo' =>
      if length options <? 3 then
        harvest wordsToAvoid i (S j) todo'
          (if negb (i =? j) && (15 <? length sj) then
             let words := regex_split spacesRegex sj in
             match scanWords wordsToAvoid options words 0 words with
             | Some option => options ++ [option]
             | None => options
             end
           else options)
      else options
  end.

(** The loop of line 338. *)
Fixpoint padOptions (fuel : nat) (options : list jsstring) : list jsstring :=
  match fuel with
  | O => options
  | S f =>
      if length options <? 3
      then padOptions f
             (options ++ [lit "Option " ++ decimal (length options + 1)])
      else options
  end.

Definition distractors (sentences : list jsstring) (i : nat)
  (sentence : jsstring) : list jsstring :=
  let wordsToAvoid :=
    map toLowerCase
        (filter (fun w => 4 <? length w) (regex_split spacesRegex sentence)) in
  padOptions 3 (harvest wordsToAvoid i 0 sentences []).

(** Lines 342-345. *)
Definition chooseCorrect (sentence : jsstring) : Rand jsstring :=
  let correctPhrases := map matched (matchAll longWordRegex sentence) in
  match correctPhrases with
  | [] => ret (lit "Correct option")
  | _ :: _ =>
      let* r := randomBelow (length correctPhrases) in
      ret (nth r correctPhrases [])
  end.

(** Lines 317-353: the record made from sentence [i]. *)
Definition sentenceQuestion (sentences : list jsstring) (i : nat)
  (sentence : jsstring) : Rand Question :=
  let options := distractors sentences i sentence in
  let* correctOption := chooseCorrect sentence in
  let* pos := randomBelow 4 in
  let options := splice_insert options pos correctOption in
  ret (mkQuestion
         (if endsWith sentence (lit "?") then sentence
          else sentence ++ lit "?")
         (slice options 0 4)
         (indexOf options correctOption)).

(** The loop of line 312 from index [i] on. *)
Fixpoint sentenceLoop (count : nat) (sentences : list jsstring) (i : nat)
  (todo : list jsstring) (questionIndex : nat) (questions : list Question)
  : Rand (list Question) :=
  match todo with
  | [] => ret questions
  | s :: todo' =>
      if questionIndex <? count then
        let sentence := trim s in
        if includes sentence (lit "?") || (30 <? length sentence) then
          let* q := sentenceQuestion sentences i sentence in
          sentenceLoop count sentences (S i) todo' (S questionIndex)
                       (questions ++ [q])
        else sentenceLoop count sentences (S i) todo' questionIndex questions
      else ret questions
  end.

Definition genericQuestion (idx correct : nat) : Question :=
  mkQuestion
    (lit "Question " ++ decimal (idx + 1) ++ lit " related to the subject?")
    [lit "First possible answer"; lit "Second possible answer";
     lit "Third possible answer"; lit "Fourth possible answer"]
    (Z.of_nat correct).

(** The loop of line 359; it runs at most [count] times. *)
Fixpoint fillLoop (fuel count : nat) (questions : list Question)
  : Rand (list Question) :=
  match fuel with
  | O => ret questions
  | S f =>
      if length questions <? count then
        let* c := randomBelow 4 in
        fillLoop f count (questions ++ [genericQuestion (length questions) c])
      else ret questions
  end.

Definition createFallbackQuestionsFromText (text : jsstring) (count : nat)
  : Rand (list Question) :=
  let sentences := regex_split sentenceEndRegex text in
  let* questions := sentenceLoop count sentences 0 sentences 0 [] in
  let* questions := fillLoop count count questions in
  ret (slice questions 0 count).

(** [return createFallbackQuestionsFromText(mcqText, 10)], lines 298 and
    302. *)
Definition fallbackTier (mcqText : jsstring) : Rand (list json) :=
  let* questions := createFallbackQuestionsFromText mcqText 10 in
  ret (map to_json questions).

(** Lines 252-298, reached when the JSON tier falls through. *)
Definition structuredTier (mcqText : jsstring) : Rand (list json) :=
  let questions := structuredQuestions mcqText in
  if 5 <=? length questions
  then ret (map to_json (slice questions 0 10))
  else fallbackTier mcqText.

(** The [try] block, lines 241-298. *)
Definition tryBlock (mcqText : jsstring) : outcome (Rand (list json)) :=
  match jsonTier mcqText with
  | Throw => Throw
  | Normal (Some result) => Normal (ret result)
  | Normal None => Normal (structuredTier mcqText)
  end.

Definition parseMCQQuestions (mcqText : jsstring) : Rand (list json) :=
  match tryBlock mcqText with
  | Normal result => result
  | Throw => fallbackTier mcqText
  end.

End Pipeline.

(** * Specification vocabulary *)

(** ** What a successful match means *)

(** [iter n R]: [n] steps of [R] in a row. *)
Fixpoint iter (n : nat) (R : mstate -> mstate -> Prop) (s s' : mstate) : Prop :=
  match n with
  | O => s' = s
  | S n' => exists s1, R s s1 /\ iter n' R s1 s'
  end.

(** [denotes r s s']: starting in [s], the pattern [r] can match up to [s'].
    This forgets priorities; it is what any match found must satisfy. *)
Fixpoint denotes (r : regex) (s s' : mstate) : Prop :=
  match r with
  | Eps => s' = s
  | Chr p =>
      exists c, p c = true /\ rest s = c :: rest s'
                /\ seen s' = c :: seen s /\ caps s' = caps s
  | Seq a b => exists s1, denotes a s s1 /\ denotes b s1 s'
  | Alt a b => denotes a s s' \/ denotes b s s'
  | Star _ a => exists n, iter n (denotes a) s s'
  | Group n a => exists s1, denotes a s s1 /\ s' = set_cap n (consumed s s1) s1
  | Bol => seen s = [] /\ s' = s
  | Eol => rest s = [] /\ s' = s
  | WordB => xorb (at_word (seen s)) (at_word (rest s)) = true /\ s' = s
  | Look a =>
      exists s1, denotes a s s1 /\ s' = MState (seen s) (rest s) (caps s1)
  end.

(** ** Question marks and shapes *)

Definition qmark : char := 63%N.

Definition ends_with_qmark (s : jsstring) : Prop :=
  exists w, s = w ++ [qmark].

(** The per-field constraints on a record and on the value handed out. *)
Definition shaped (q : Question) : Prop :=
  length (options q) = 4 /\ (0 <= correctAnswer q <= 3)%Z.

Definition has_shape (v : json) : bool :=
  match v with
  | JObj fs =>
      match get_field (lit "options") fs, get_field (lit "correctAnswer") fs with
      | Some (JArr o), Some (JNum c 0) =>
          (length o =? 4) && (0 <=? c)%Z && (c <=? 3)%Z
      | _, _ => false
      end
  | _ => false
  end.

(** ** The correct-answer marker in the specification's words

    Following the specification (section 4.2, step 4): one case-insensitive
    search of the zone for [correct [answer] [is] [:] A|B|C|D], the letter
    found mapped to 0-3, and 0 when there is no marker.  It is only compared
    with [findCorrectAnswer] of the program. *)
Definition spec_correctRegex : regex :=
  (LitI (lit "correct") ;;
   Opt (Star true ws ;; LitI (lit "answer")) ;;
   Opt (Star true ws ;; LitI (lit "is")) ;;
   Opt (Star true ws ;; Chr (is_char ":")) ;;
   Star true ws ;;
   Group 1 (Chr (fun c => in_range 97 100 (ascii_lower c))))%re.

Definition spec_correctIndex (optionsText : jsstring) : Z :=
  match regex_match spec_correctRegex optionsText with
  | Some m =>
      match group 1 m with
      | [c] => Z.of_N (ascii_lower c - 97)
      | _ => 0%Z
      end
  | None => 0%Z
  end.

(** ** Sample inputs *)

(** [toLowerCase] on ASCII text, and two random sources. *)
Definition asciiLowerCase : jsstring -> jsstring := map ascii_lower.
Definition zeros : nat -> nat := fun _ => 0.
Definition counting : nat -> nat := fun i => i.

(** Five numbered questions with four lettered options each. *)
Definition five_questions : jsstring := unlines
  ["1. What is one?"; "A. a"; "B. b"; "C. c"; "D. d"; EmptyString;
   "2. What is two?"; "A. a"; "B. b"; "C. c"; "D. d"; EmptyString;
   "3. What is three?"; "A. a"; "B. b"; "C. c"; "D. d"; EmptyString;
   "4. What is four?"; "A. a"; "B. b"; "C. c"; "D. d"; EmptyString;
   "5. What is five?"; "A. a"; "B. b"; "C. c"; "D. d"]%string.

(** The same, every question stating that its answer is B. *)
Definition answer_marker_text : jsstring := unlines
  ["1. What is one?"; "A. a"; "B. b"; "C. c"; "D. d - correct answer: B";
   EmptyString;
   "2. What is two?"; "A. a"; "B. b"; "C. c"; "D. d - correct answer: B";
   EmptyString;
   "3. What is three?"; "A. a"; "B. b"; "C. c"; "D. d - correct answer: B";
   EmptyString;
   "4. What is four?"; "A. a"; "B. b"; "C. c"; "D. d - correct answer: B";
   EmptyString;
   "5. What is five?"; "A. a"; "B. b"; "C. c"; "D. d - correct answer: B"]%string.

(** Six numbered questions with four lettered options each and the marker
    [Correct: B], once at the end of the line of option D and once on a line
    of its own. *)
Definition six_questions_marker_inline : jsstring := unlines
  ["1. What is one?"; "A. a"; "B. b"; "C. c"; "D. d (Correct: B)"; EmptyString;
   "2. What is two?"; "A. a"; "B. b"; "C. c"; "D. d (Correct: B)"; EmptyString;
   "3. What is three?"; "A. a"; "B. b"; "C. c"; "D. d (Correct: B)"; EmptyString;
   "4. What is four?"; "A. a"; "B. b"; "C. c"; "D. d (Correct: B)"; EmptyString;
   "5. What is five?"; "A. a"; "B. b"; "C. c"; "D. d (Correct: B)"; EmptyString;
   "6. What is six?"; "A. a"; "B. b"; "C. c"; "D. d (Correct: B)"]%string.

Definition six_questions_marker_line : jsstring := unlines
  ["1. What is one?"; "A. a"; "B. b"; "C. c"; "D. d"; "Correct: B"; EmptyString;
   "2. What is two?"; "A. a"; "B. b"; "C. c"; "D. d"; "Correct: B"; EmptyString;
   "3. What is three?"; "A. a"; "B. b"; "C. c"; "D. d"; "Correct: B"; EmptyString;
   "4. What is four?"; "A. a"; "B. b"; "C. c"; "D. d"; "Correct: B"; EmptyString;
   "5. What is five?"; "A. a"; "B. b"; "C. c"; "D. d"; "Correct: B"; EmptyString;
   "6. What is six?"; "A. a"; "B. b"; "C. c"; "D. d"; "Correct: B"]%string.

(** An array the pattern finds but [JSON.parse] rejects, followed by the five
    questions. *)
Definition malformed_json_text : jsstring :=
  quoted "[{'question': }]" ++ nl :: five_questions.

(** A valid array of ten elements, none of them a well-formed record. *)
Definition ill_shaped_json_text : jsstring :=
  quoted "[{'question':'Q?','options':['only one'],'correctAnswer':7}," ++
  quoted "{},{},{},{},{},{},{},{},{}]".

(** A valid array of eleven records inside prose, and its elements. *)
Definition eleven_json_text : jsstring :=
  lit "Here are the questions: " ++
   quoted "[{'question':'Q1?','options':['a','b','c','d'],'correctAnswer':1}," ++
   quoted "{'question':'Q2?','options':['a','b','c','d'],'correctAnswer':2}," ++
   quoted "{'question':'Q3?','options':['a','b','c','d'],'correctAnswer':3}," ++
   quoted "{'question':'Q4?','options':['a','b','c','d'],'correctAnswer':0}," ++
   quoted "{'question':'Q5?','options':['a','b','c','d'],'correctAnswer':1}," ++
   quoted "{'question':'Q6?','options':['a','b','c','d'],'correctAnswer':2}," ++
   quoted "{'question':'Q7?','options':['a','b','c','d'],'correctAnswer':3}," ++
   quoted "{'question':'Q8?','options':['a','b','c','d'],'correctAnswer':0}," ++
   quoted "{'question':'Q9?','options':['a','b','c','d'],'correctAnswer':1}," ++
   quoted "{'question':'Q10?','options':['a','b','c','d'],'correctAnswer':2}," ++
   quoted "{'question':'Q11?','options':['a','b','c','d'],'correctAnswer':3}]" ++
  lit " Good luck!".

Definition abcd : list jsstring := [lit "a"; lit "b"; lit "c"; lit "d"].

Definition eleven_parsed : list json :=
  [to_json (mkQuestion (lit "Q1?") abcd 1);
   to_json (mkQuestion (lit "Q2?") abcd 2);
   to_json (mkQuestion (lit "Q3?") abcd 3);
   to_json (mkQuestion (lit "Q4?") abcd 0);
   to_json (mkQuestion (lit "Q5?") abcd 1);
   to_json (mkQuestion (lit "Q6?") abcd 2);
   to_json (mkQuestion (lit "Q7?") abcd 3);
   to_json (mkQuestion (lit "Q8?") abcd 0);
   to_json (mkQuestion (lit "Q9?") abcd 1);
   to_json (mkQuestion (lit "Q10?") abcd 2);
   to_json (mkQuestion (lit "Q11?") abcd 3)].

(** The array of [eleven_json_text] on its own, and the same reply with an
    afterthought that closes a brace and a bracket. *)
Definition eleven_array : jsstring :=
  quoted "[{'question':'Q1?','options':['a','b','c','d'],'correctAnswer':1}," ++
  quoted "{'question':'Q2?','options':['a','b','c','d'],'correctAnswer':2}," ++
  quoted "{'question':'Q3?','options':['a','b','c','d'],'correctAnswer':3}," ++
  quoted "{'question':'Q4?','options':['a','b','c','d'],'correctAnswer':0}," ++
  quoted "{'question':'Q5?','options':['a','b','c','d'],'correctAnswer':1}," ++
  quoted "{'question':'Q6?','options':['a','b','c','d'],'correctAnswer':2}," ++
  quoted "{'question':'Q7?','options':['a','b','c','d'],'correctAnswer':3}," ++
  quoted "{'question':'Q8?','options':['a','b','c','d'],'correctAnswer':0}," ++
  quoted "{'question':'Q9?','options':['a','b','c','d'],'correctAnswer':1}," ++
  quoted "{'question':'Q10?','options':['a','b','c','d'],'correctAnswer':2}," ++
  quoted "{'question':'Q11?','options':['a','b','c','d'],'correctAnswer':3}]".

Definition eleven_json_with_afterthought : jsstring :=
  lit "Here are the questions: " ++ eleven_array ++
  quoted " (see also {'x':[{'a':1}]})".

(** ** Patterns without captures

    [simple r]: no capture group, no lookahead, and every iterated
    sub-pattern consumes input.  For such patterns a match is found whenever
    one exists. *)
Fixpoint consuming (r : regex) : bool :=
  match r with
  | Chr _ => true
  | Seq a b => consuming a || consuming b
  | Alt a b => consuming a && consuming b
  | Eps | Star _ _ | Group _ _ | Bol | Eol | WordB | Look _ => false
  end.

Fixpoint simple (r : regex) : bool :=
  match r with
  | Eps | Chr _ | Bol | Eol | WordB => true
  | Seq a b | Alt a b => simple a && simple b
  | Star _ a => simple a && consuming a
  | Group _ _ | Look _ => false
  end.

(** ** The caller

    The body that the route [/generate-mcqs] sends once the service has
    answered with [mcqText] (lines 111-116):
    [{ mcqQuestions: mcqQuestions.slice(0, 10) }]. *)
Definition generateMcqsResponse (toLowerCase : jsstring -> jsstring)
  (random : nat -> nat) (mcqText : jsstring) : Rand json :=
  bind (parseMCQQuestions toLowerCase random mcqText)
       (fun mcqQuestions =>
          ret (JObj [(lit "mcqQuestions", JArr (slice mcqQuestions 0 10))])).

(** The placeholder options of line 339 for the positions from [from] on. *)
Definition placeholders (from : nat) : list jsstring :=
  map (fun k => lit "Option " ++ decimal (k + 1)) (seq from (3 - from)).

(** The generic records the loop of line 359 appends after [len] records,
    the random source being at its [n]-th call. *)
Definition filling (random : nat -> nat) (len n howmany : nat)
  : list Question :=
  map (fun k => genericQuestion (len + k) (random (n + k) mod 4))
      (seq 0 howmany).

(** ** What the greedy pattern locates *)

(** The next character of the text is white space. *)
Definition next_is_ws (s : mstate) : Prop :=
  match rest s with c :: _ => is_ws c = true | [] => False end.

(** The end of [jsonRegex]: a closing brace, white space, a closing
    bracket. *)
Definition jsonTail : regex :=
  (Chr (is_char "}") ;; Star true ws ;; Chr (is_char "]"))%re.

(** * Properties *)

(** ** String equality *)

Lemma str_eqb_eq (a b : jsstring) : str_eqb a b = true <-> a = b.
Proof.
  revert b; induction a as [|x a IH]; intros [|y b]; simpl;
    try (split; congruence).
  rewrite andb_true_iff, N.eqb_eq, IH. split.
  - intros [-> ->]; reflexivity.
  - intros H; injection H; auto.
Qed.

Lemma str_eqb_refl (a : jsstring) : str_eqb a a = true.
Proof. apply str_eqb_eq; reflexivity. Qed.

(** ** Soundness of the matcher *)

Lemma orelse_some {A} (x y : option A) (v : A) :
  orelse x y = Some v -> x = Some v \/ y = Some v.
Proof. destruct x; simpl; auto. Qed.

Lemma star_sound (g : bool) (a : regex) (step : cont -> cont) :
  (forall k s x, step k s = Some x ->
                 exists s', denotes a s s' /\ k s' = Some x) ->
  forall fuel k s x,
    star g step fuel k s = Some x ->
    exists s', denotes (Star g a) s s' /\ k s' = Some x.
Proof.
  intros Hstep fuel; induction fuel as [|f IH]; intros k s x H; simpl in H.
  - exists s; split; [exists 0; reflexivity | assumption].
  - assert (Hcases :
      k s = Some x \/
      step (fun s' => if length (rest s') <? length (rest s)
                      then star g step f k s' else None) s = Some x).
    { destruct g; apply orelse_some in H; tauto. }
    destruct Hcases as [Hk | Hit].
    + exists s; split; [exists 0; reflexivity | assumption].
    + apply Hstep in Hit. destruct Hit as (s1 & Ha & Hrec).
      destruct (length (rest s1) <? length (rest s)); [|discriminate].
      apply IH in Hrec. destruct Hrec as (s' & (n & Hn) & Hk).
      exists s'; split; [|assumption].
      exists (S n), s1; split; assumption.
Qed.

Lemma rmatch_sound (r : regex) :
  forall k s x, rmatch r k s = Some x ->
                exists s', denotes r s s' /\ k s' = Some x.
Proof.
  induction r as [ | p | a IHa b IHb | a IHa b IHb | g a IHa | n a IHa
                   | | | | a IHa ]; intros k s x H; cbn [rmatch] in H.
  - exists s; split; [reflexivity | assumption].
  - destruct (rest s) as [|c t] eqn:Hr; [discriminate|].
    destruct (p c) eqn:Hp; [|discriminate].
    exists (MState (c :: seen s) t (caps s)); split; [|assumption].
    exists c; simpl; auto.
  - apply IHa in H. destruct H as (s1 & H1 & H).
    apply IHb in H. destruct H as (s2 & H2 & H).
    exists s2; split; [exists s1; auto | assumption].
  - apply orelse_some in H. destruct H as [H | H].
    + apply IHa in H. destruct H as (s1 & H1 & H). exists s1; simpl; auto.
    + apply IHb in H. destruct H as (s1 & H1 & H). exists s1; simpl; auto.
  - eapply star_sound; [exact IHa | exact H].
  - apply IHa in H. destruct H as (s1 & H1 & H).
    exists (set_cap n (consumed s s1) s1); split; [exists s1; auto | assumption].
  - destruct (seen s) eqn:Hs; [|discriminate].
    exists s; simpl; auto.
  - destruct (rest s) eqn:Hs; [|discriminate].
    exists s; simpl; auto.
  - destruct (xorb (at_word (seen s)) (at_word (rest s))) eqn:Hx; [|discriminate].
    exists s; simpl; auto.
  - destruct (rmatch a Some s) as [s1|] eqn:Ha; [|discriminate].
    apply IHa in Ha. destruct Ha as (s2 & H2 & E). injection E as ->.
    exists (MState (seen s) (rest s) (caps s1)); split; [exists s1; auto | assumption].
Qed.

(** A match only moves forward through the text. *)
Lemma denotes_text (r : regex) :
  forall s s', denotes r s s' ->
               exists w, rest s = w ++ rest s' /\ seen s' = rev w ++ seen s.
Proof.
  induction r as [ | p | a IHa b IHb | a IHa b IHb | g a IHa | n a IHa
                   | | | | a IHa ]; intros s s' H; simpl in H.
  - subst; exists []; auto.
  - destruct H as (c & _ & Hr & Hs & _). exists [c]; auto.
  - destruct H as (s1 & H1 & H2).
    apply IHa in H1. apply IHb in H2.
    destruct H1 as (w1 & R1 & S1), H2 as (w2 & R2 & S2).
    exists (w1 ++ w2). rewrite R1, R2, S2, S1, rev_app_distr, !app_assoc. auto.
  - destruct H as [H | H]; [apply IHa | apply IHb]; assumption.
  - destruct H as (n & H). revert s H.
    induction n as [|n IHn]; intros s H; simpl in H.
    + subst; exists []; auto.
    + destruct H as (s1 & H1 & H2). apply IHa in H1. apply IHn in H2.
      destruct H1 as (w1 & R1 & S1), H2 as (w2 & R2 & S2).
      exists (w1 ++ w2). rewrite R1, R2, S2, S1, rev_app_distr, !app_assoc. auto.
  - destruct H as (s1 & H1 & ->). apply IHa in H1. exact H1.
  - destruct H as (_ & ->). exists []; auto.
  - destruct H as (_ & ->). exists []; auto.
  - destruct H as (_ & ->). exists []; auto.
  - destruct H as (s1 & _ & ->). exists []; auto.
Qed.

Lemma consumed_app (s s' : mstate) (w : jsstring) :
  rest s = w ++ rest s' -> consumed s s' = w.
Proof.
  intros H. unfold consumed. rewrite H, length_app.
  replace (length w + length (rest s') - length (rest s')) with (length w) by lia.
  rewrite firstn_app, firstn_all, Nat.sub_diag. simpl. apply app_nil_r.
Qed.

Lemma match_at_sound (r : regex) (sn rs : jsstring) (m : mstate * mstate) :
  match_at r sn rs = Some m ->
  caps (fst m) = [] /\ denotes r (fst m) (snd m).
Proof.
  unfold match_at. destruct (rmatch r Some (MState sn rs [])) as [e|] eqn:H;
    [|discriminate].
  intros E; injection E as <-. simpl. split; [reflexivity|].
  apply rmatch_sound in H. destruct H as (s' & D & E). injection E as ->. exact D.
Qed.

Lemma search_from_sound (r : regex) (rs : jsstring) :
  forall sn m, search_from r sn rs = Some m ->
               caps (fst m) = [] /\ denotes r (fst m) (snd m).
Proof.
  induction rs as [|c t IH]; intros sn m H; simpl in H.
  - destruct (match_at r sn []) as [m'|] eqn:E; [|discriminate].
    injection H as <-. eapply match_at_sound; eassumption.
  - destruct (match_at r sn (c :: t)) as [m'|] eqn:E.
    + injection H as <-. eapply match_at_sound; eassumption.
    + eapply IH; eassumption.
Qed.

Lemma match_all_go_sound (r : regex) (fuel : nat) :
  forall sn rs,
    Forall (fun m => caps (fst m) = [] /\ denotes r (fst m) (snd m))
           (match_all_go fuel r sn rs).
Proof.
  induction fuel as [|f IH]; intros sn rs; simpl; [constructor|].
  destruct (search_from r sn rs) as [m|] eqn:E; [|constructor].
  constructor.
  - eapply search_from_sound; eassumption.
  - destruct (length (rest (snd m)) <? length (rest (fst m))); [apply IH|].
    destruct (rest (snd m)); [constructor | apply IH].
Qed.

(** ** The fuel of the matcher is never used up *)

Lemma star_ext (g : bool) (step : cont -> cont) :
  (forall k k' s, (forall s', k s' = k' s') -> step k s = step k' s) ->
  forall fuel k k' s,
    (forall s', k s' = k' s') ->
    star g step fuel k s = star g step fuel k' s.
Proof.
  intros Hstep fuel. induction fuel as [|f IH]; intros k k' s Hk; simpl.
  - apply Hk.
  - rewrite (Hk s).
    rewrite (Hstep _ (fun s' => if length (rest s') <? length (rest s)
                                then star g step f k' s' else None) s).
    + reflexivity.
    + intros s'. destruct (length (rest s') <? length (rest s)); [|reflexivity].
      apply IH, Hk.
Qed.

Lemma rmatch_ext (r : regex) :
  forall k k' s, (forall s', k s' = k' s') -> rmatch r k s = rmatch r k' s.
Proof.
  induction r as [ | p | a IHa b IHb | a IHa b IHb | g a IHa | n a IHa
                   | | | | a IHa ]; intros k k' s Hk; cbn [rmatch];
    try (rewrite ?Hk; reflexivity).
  - destruct (rest s) as [|c t]; [reflexivity|].
    destruct (p c); [apply Hk | reflexivity].
  - apply IHa. intros s'. apply IHb, Hk.
  - rewrite (IHa k k' s Hk), (IHb k k' s Hk). reflexivity.
  - apply star_ext; [exact IHa | exact Hk].
  - apply IHa. intros s'. apply Hk.
  - destruct (rmatch a Some s); [apply Hk | reflexivity].
Qed.

(** Any fuel above the length of the remaining input gives the same
    iteration. *)
Lemma star_fuel (g : bool) (a : regex) :
  forall f1 f2 k s,
    length (rest s) < f1 -> length (rest s) < f2 ->
    star g (rmatch a) f1 k s = star g (rmatch a) f2 k s.
Proof.
  induction f1 as [|f1 IH]; intros f2 k s H1 H2; [lia|].
  destruct f2 as [|f2]; [lia|]. simpl.
  rewrite (@rmatch_ext a
             (fun s' => if length (rest s') <? length (rest s)
                        then star g (rmatch a) f1 k s' else None)
             (fun s' => if length (rest s') <? length (rest s)
                        then star g (rmatch a) f2 k s' else None) s).
  - reflexivity.
  - intros s'. destruct (length (rest s') <? length (rest s)) eqn:E;
      [|reflexivity].
    apply Nat.ltb_lt in E. apply IH; lia.
Qed.

Lemma search_from_position (r : regex) (rs : jsstring) :
  forall sn m, search_from r sn rs = Some m ->
               length (rest (fst m)) <= length rs.
Proof.
  induction rs as [|c t IH]; intros sn m H; simpl in H.
  - destruct (match_at r sn []) as [m'|] eqn:E; [|discriminate].
    injection H as <-. unfold match_at in E.
    destruct (rmatch r Some _); [|discriminate]. injection E as <-.
    simpl. lia.
  - destruct (match_at r sn (c :: t)) as [m'|] eqn:E.
    + injection H as <-. unfold match_at in E.
      destruct (rmatch r Some _); [|discriminate]. injection E as <-.
      simpl. lia.
    + apply IH in H. simpl. lia.
Qed.

Lemma match_all_go_fuel (r : regex) :
  forall f1 f2 sn rs,
    length rs < f1 -> length rs < f2 ->
    match_all_go f1 r sn rs = match_all_go f2 r sn rs.
Proof.
  induction f1 as [|f1 IH]; intros f2 sn rs H1 H2; [lia|].
  destruct f2 as [|f2]; [lia|]. simpl.
  destruct (search_from r sn rs) as [m|] eqn:E; [|reflexivity].
  f_equal.
  pose proof (@search_from_position r rs sn m E) as Hpos.
  destruct (length (rest (snd m)) <? length (rest (fst m))) eqn:El.
  - apply Nat.ltb_lt in El. apply IH; lia.
  - apply search_from_sound in E. destruct E as (_ & D).
    apply denotes_text in D. destruct D as (w & Hw & _).
    assert (length (rest (snd m)) <= length (rest (fst m)))
      by (rewrite Hw, length_app; lia).
    destruct (rest (snd m)) as [|c t] eqn:Er; [reflexivity|].
    simpl in *. apply IH; lia.
Qed.

(** ** The fuel of [JSON.parse] is never used up *)

Lemma skip_ws_length (s : jsstring) : length (Json.skip_ws s) <= length s.
Proof.
  induction s as [|c t IH]; simpl; [lia|].
  destruct (Json.is_jws c); simpl; lia.
Qed.

Lemma string_body_progress (n : nat) :
  forall s acc w r,
    length s <= n ->
    Json.string_body acc s = Some (w, r) -> length r < length s.
Proof.
  induction n as [|n IH]; intros s acc w r Hn H.
  - destruct s; [discriminate | simpl in Hn; lia].
  - destruct s as [|c t]; [discriminate|]. cbn [Json.string_body] in H.
    simpl in Hn. simpl length.
    destruct (N.eqb c 34); [injection H as _ <-; lia|].
    destruct (N.eqb c 92).
    + destruct t as [|e t1]; [discriminate|]. simpl in Hn. simpl length.
      destruct (N.eqb e 117).
      * destruct t1 as [|h1 [|h2 [|h3 [|h4 t2]]]]; try discriminate.
        destruct (Json.hex4 h1 h2 h3 h4); [|discriminate].
        simpl in Hn. apply IH in H; simpl; lia.
      * destruct (Json.escape e); [|discriminate].
        apply IH in H; lia.
    + destruct (N.ltb c 32); [discriminate|].
      apply IH in H; lia.
Qed.

Lemma digits_length (s d r : jsstring) :
  Json.digits s = (d, r) -> length s = length d + length r.
Proof.
  revert d r. induction s as [|c t IH]; intros d r H; simpl in H.
  - injection H as <- <-. reflexivity.
  - destruct (is_digit c).
    + destruct (Json.digits t) as [d' r'] eqn:E. injection H as <- <-.
      simpl. rewrite (IH _ _ eq_refl). reflexivity.
    + injection H as <- <-. reflexivity.
Qed.

Lemma number_progress (s : jsstring) (v : json) (r : jsstring) :
  Json.number s = Some (v, r) -> length r < length s.
Proof.
  unfold Json.number.
  set (sign := match s with
               | c :: t => if N.eqb c 45 then (true, t) else (false, s)
               | [] => (false, s)
               end).
  assert (Hs0 : length (snd sign) <= length s).
  { subst sign. destruct s as [|c t]; simpl; [lia|].
    destruct (N.eqb c 45); simpl; lia. }
  destruct sign as [neg s0]. simpl in Hs0.
  destruct (Json.digits s0) as [ip s1] eqn:Ei. apply digits_length in Ei.
  match goal with |- context [negb ?b] => destruct b eqn:Eok end;
    [|discriminate]. cbn [negb].
  assert (Hip : 0 < length ip) by (destruct ip; [discriminate | simpl; lia]).
  clear Eok.
  match goal with |- match ?f with _ => _ end = _ -> _ =>
    destruct f as [[fp s2]|] eqn:Ef end; [|discriminate].
  assert (Hs2 : length s2 <= length s1).
  { destruct s1 as [|c t]; [injection Ef as _ <-; lia|].
    destruct (N.eqb c 46).
    - destruct (Json.digits t) as [[|x fp'] s2'] eqn:Ed; [discriminate|].
      injection Ef as _ <-. apply digits_length in Ed. simpl in *. lia.
    - injection Ef as _ <-. lia. }
  clear Ef.
  match goal with |- match ?f with _ => _ end = _ -> _ =>
    destruct f as [[ex s3]|] eqn:Ee end; [|discriminate].
  assert (Hs3 : length s3 <= length s2).
  { destruct s2 as [|c t]; [injection Ee as _ <-; lia|].
    destruct (N.eqb c 101 || N.eqb c 69).
    - match type of Ee with (let (_, _) := ?p in _) = _ =>
        assert (Ht : length (snd p) <= length t)
          by (destruct t as [|x t0]; simpl; [lia|];
              destruct (N.eqb x 45); [simpl; lia|];
              destruct (N.eqb x 43); simpl; lia);
        destruct p as [eneg t'] end.
      simpl in Ht.
      destruct (Json.digits t') as [[|x ep] s3'] eqn:Ed; [discriminate|].
      injection Ee as _ <-. apply digits_length in Ed. simpl in *. lia.
    - injection Ee as _ <-. lia. }
  clear Ee.
  destruct (Json.normalise _ _ _). intros H. injection H as _ <-. lia.
Qed.

Lemma keyword_progress (w : string) (v v' : json) (s r : jsstring) :
  0 < length (lit w) ->
  Json.keyword w v s = Some (v', r) -> length r < length s.
Proof.
  unfold Json.keyword. intros Hw.
  destruct (prefixb (lit w) s) eqn:E; [|discriminate].
  intros H. injection H as _ <-. rewrite length_skipn.
  destruct s as [|c t]; [|cbn [length]; lia].
  destruct (lit w); [simpl in Hw; lia | discriminate].
Qed.

Section Progress.

Variable pv : jsstring -> option (json * jsstring).
Hypothesis pv_progress :
  forall s v r, pv s = Some (v, r) -> length r < length s.

Lemma elements_progress (fuel : nat) :
  forall s vs r,
    Json.elements pv fuel s = Some (vs, r) -> length r < length s.
Proof.
  induction fuel as [|f IH]; intros s vs r H; simpl in H; [discriminate|].
  destruct (pv s) as [[v s1]|] eqn:E; [|discriminate].
  apply pv_progress in E. pose proof (skip_ws_length s1) as Hw.
  destruct (Json.skip_ws s1) as [|c s2]; [discriminate|]. simpl in Hw.
  destruct (N.eqb c 44).
  - destruct (Json.elements pv f s2) as [[vs' s3]|] eqn:E2; [|discriminate].
    injection H as _ <-. apply IH in E2. lia.
  - destruct (N.eqb c 93); [|discriminate]. injection H as _ <-. lia.
Qed.

Lemma members_progress (fuel : nat) :
  forall acc s fs r,
    Json.members pv fuel acc s = Some (fs, r) -> length r < length s.
Proof.
  induction fuel as [|f IH]; intros acc s fs r H; simpl in H; [discriminate|].
  pose proof (skip_ws_length s) as Hw0.
  destruct (Json.skip_ws s) as [|q s0]; [discriminate|]. simpl in Hw0.
  destruct (N.eqb q 34); [|discriminate].
  destruct (Json.string_body [] s0) as [[k s1]|] eqn:Ek; [|discriminate].
  apply (@string_body_progress (length s0)) in Ek; [|lia].
  pose proof (skip_ws_length s1) as Hw1.
  destruct (Json.skip_ws s1) as [|c s2]; [discriminate|]. simpl in Hw1.
  destruct (N.eqb c 58); [|discriminate].
  destruct (pv s2) as [[v s3]|] eqn:Ev; [|discriminate].
  apply pv_progress in Ev. pose proof (skip_ws_length s3) as Hw3.
  destruct (Json.skip_ws s3) as [|d s4]; [discriminate|]. simpl in Hw3.
  destruct (N.eqb d 44).
  - apply IH in H. lia.
  - destruct (N.eqb d 125); [|discriminate]. injection H as _ <-. lia.
Qed.

End Progress.

Lemma value_progress (fuel : nat) :
  forall s v r, Json.value fuel s = Some (v, r) -> length r < length s.
Proof.
  induction fuel as [|f IH]; intros s v r H; [discriminate|].
  cbn [Json.value] in H.
  pose proof (skip_ws_length s) as Hw.
  destruct (Json.skip_ws s) as [|c t]; [discriminate|]. simpl in Hw.
  destruct (N.eqb c 91).
  { pose proof (skip_ws_length t) as Hw'.
    destruct (Json.skip_ws t) as [|d t']; [discriminate|]. simpl in Hw'.
    destruct (N.eqb d 93); [injection H as _ <-; lia|].
    destruct (Json.elements _ _ t) as [[vs s1]|] eqn:E; [|discriminate].
    injection H as _ <-. apply (@elements_progress _ IH _ _ _ _) in E. lia. }
  destruct (N.eqb c 123).
  { pose proof (skip_ws_length t) as Hw'.
    destruct (Json.skip_ws t) as [|d t']; [discriminate|]. simpl in Hw'.
    destruct (N.eqb d 125); [injection H as _ <-; lia|].
    destruct (Json.members _ _ _ t) as [[fs s1]|] eqn:E; [|discriminate].
    injection H as _ <-. apply (@members_progress _ IH _ _ _ _ _) in E. lia. }
  destruct (N.eqb c 34).
  { destruct (Json.string_body [] t) as [[w s1]|] eqn:E; [|discriminate].
    injection H as _ <-.
    apply (@string_body_progress (length t)) in E; lia. }
  destruct (N.eqb c 110);
    [apply keyword_progress in H; [simpl in H; lia | simpl; lia]|].
  destruct (N.eqb c 116);
    [apply keyword_progress in H; [simpl in H; lia | simpl; lia]|].
  destruct (N.eqb c 102);
    [apply keyword_progress in H; [simpl in H; lia | simpl; lia]|].
  apply number_progress in H. simpl in H. lia.
Qed.

Section Agreement.

Variables pv pv' : jsstring -> option (json * jsstring).
Hypothesis pv_progress :
  forall s v r, pv s = Some (v, r) -> length r < length s.

Lemma elements_fuel :
  forall f1 f2 s,
    (forall s', length s' <= length s -> pv s' = pv' s') ->
    length s < f1 -> length s < f2 ->
    Json.elements pv f1 s = Json.elements pv' f2 s.
Proof.
  induction f1 as [|f1 IH]; intros f2 s Hag H1 H2; [lia|].
  destruct f2 as [|f2]; [lia|]. simpl.
  rewrite <- (Hag s (le_n _)).
  destruct (pv s) as [[v s1]|] eqn:E; [|reflexivity].
  apply pv_progress in E. pose proof (skip_ws_length s1) as Hw.
  destruct (Json.skip_ws s1) as [|c s2]; [reflexivity|]. simpl in Hw.
  destruct (N.eqb c 44); [|reflexivity].
  rewrite (IH f2 s2); [reflexivity | | lia | lia].
  intros s' Hs'. apply Hag. lia.
Qed.

Lemma members_fuel :
  forall f1 f2 acc s,
    (forall s', length s' <= length s -> pv s' = pv' s') ->
    length s < f1 -> length s < f2 ->
    Json.members pv f1 acc s = Json.members pv' f2 acc s.
Proof.
  induction f1 as [|f1 IH]; intros f2 acc s Hag H1 H2; [lia|].
  destruct f2 as [|f2]; [lia|]. simpl.
  pose proof (skip_ws_length s) as Hw0.
  destruct (Json.skip_ws s) as [|q s0]; [reflexivity|]. simpl in Hw0.
  destruct (N.eqb q 34); [|reflexivity].
  destruct (Json.string_body [] s0) as [[k s1]|] eqn:Ek; [|reflexivity].
  apply (@string_body_progress (length s0)) in Ek; [|lia].
  pose proof (skip_ws_length s1) as Hw1.
  destruct (Json.skip_ws s1) as [|c s2]; [reflexivity|]. simpl in Hw1.
  destruct (N.eqb c 58); [|reflexivity].
  rewrite <- (Hag s2) by lia.
  destruct (pv s2) as [[v s3]|] eqn:Ev; [|reflexivity].
  apply pv_progress in Ev. pose proof (skip_ws_length s3) as Hw3.
  destruct (Json.skip_ws s3) as [|d s4]; [reflexivity|]. simpl in Hw3.
  destruct (N.eqb d 44); [|reflexivity].
  apply IH; [|lia|lia]. intros s' Hs'. apply Hag. lia.
Qed.

End Agreement.

(** Any fuel above the length of the text gives the same result. *)
Lemma value_fuel :
  forall f1 f2 s,
    length s < f1 -> length s < f2 -> Json.value f1 s = Json.value f2 s.
Proof.
  induction f1 as [|f1 IH]; intros f2 s H1 H2; [lia|].
  destruct f2 as [|f2]; [lia|]. cbn [Json.value].
  pose proof (skip_ws_length s) as Hw.
  destruct (Json.skip_ws s) as [|c t]; [reflexivity|]. simpl in Hw.
  assert (Hag : forall s', length s' <= length t ->
                           Json.value f1 s' = Json.value f2 s')
    by (intros s' Hs'; apply IH; lia).
  rewrite (@elements_fuel (Json.value f1) (Json.value f2)
             (@value_progress f1) (S (length t)) (S (length t)) t Hag)
    by lia.
  rewrite (@members_fuel (Json.value f1) (Json.value f2)
             (@value_progress f1) (S (length t)) (S (length t)) [] t Hag)
    by lia.
  reflexivity.
Qed.

Lemma JSON_parse_fuel (s : jsstring) (extra : nat) :
  Json.value (S (length s) + extra) s = Json.value (S (length s)) s.
Proof. apply value_fuel; lia. Qed.

(** ** Strings ending in a question mark *)

Lemma drop_ws_keeps_last (c : char) (w : jsstring) :
  is_ws c = false -> exists w', drop_ws (w ++ [c]) = w' ++ [c].
Proof.
  intros Hc. induction w as [|x w IH]; simpl.
  - rewrite Hc. exists []; reflexivity.
  - destruct (is_ws x); [exact IH|]. exists (x :: w); reflexivity.
Qed.

Lemma trim_keeps_qmark (s : jsstring) :
  ends_with_qmark s -> ends_with_qmark (trim s).
Proof.
  intros (w & ->). unfold trim.
  destruct (drop_ws_keeps_last qmark w eq_refl) as (w' & ->).
  rewrite rev_app_distr. simpl. rewrite rev_involutive.
  exists w'; reflexivity.
Qed.

Lemma endsWith_qmark (s : jsstring) :
  endsWith s (lit "?") = true -> ends_with_qmark s.
Proof.
  unfold endsWith. change (rev (lit "?")) with [qmark].
  destruct (rev s) as [|c t] eqn:E; cbn [prefixb]; [discriminate|].
  rewrite andb_true_r. intros H. apply N.eqb_eq in H. subst c.
  apply (f_equal (@rev char)) in E. rewrite rev_involutive in E.
  exists (rev t). rewrite E. reflexivity.
Qed.

(** ** The patterns of the program *)

(** The first capture of [questionRegex] ends with the question mark. *)
Lemma questionRegex_group (m : mstate * mstate) :
  denotes questionRegex (fst m) (snd m) -> ends_with_qmark (group 1 m).
Proof.
  unfold questionRegex. cbn [denotes].
  intros (s1 & _ & s2 & _ & s3 & (s4 & Hplus & c & Hc & Hrest & _) & E).
  unfold group. rewrite E. simpl.
  apply denotes_text in Hplus. destruct Hplus as (w & Hw & _).
  unfold is_char in Hc. apply N.eqb_eq in Hc. subst c.
  exists w. apply consumed_app. rewrite Hw, Hrest, <- app_assoc. reflexivity.
Qed.

(** A capture that has been set stays set. *)
Lemma denotes_captured (n : nat) (r : regex) :
  forall s s', denotes r s s' ->
               get_cap n (caps s) <> None -> get_cap n (caps s') <> None.
Proof.
  induction r as [ | p | a IHa b IHb | a IHa b IHb | g a IHa | m a IHa
                   | | | | a IHa ]; intros s s' H Hn; simpl in H.
  - subst; assumption.
  - destruct H as (c & _ & _ & _ & ->). assumption.
  - destruct H as (s1 & H1 & H2). eauto.
  - destruct H as [H | H]; eauto.
  - destruct H as (k & H). revert s H Hn.
    induction k as [|k IHk]; intros s H Hn; simpl in H.
    + subst; assumption.
    + destruct H as (s1 & H1 & H2). eauto.
  - destruct H as (s1 & H1 & ->). simpl.
    destruct (Nat.eqb m n); [discriminate | eauto].
  - destruct H as (_ & ->). assumption.
  - destruct H as (_ & ->). assumption.
  - destruct H as (_ & ->). assumption.
  - destruct H as (s1 & H1 & ->). simpl. eauto.
Qed.

(** The first group of [optionRegex] takes part in every match, so
    [optionMatch[1]] is a string. *)
Lemma optionRegex_group (m : mstate * mstate) :
  denotes optionRegex (fst m) (snd m) -> get_cap 1 (caps (snd m)) <> None.
Proof.
  unfold optionRegex. cbn [denotes].
  intros (s1 & _ & s2 & _ & s3 & (s4 & _ & E) & s5 & Hlook & E').
  rewrite E'. simpl.
  apply (@denotes_captured 1
           (Alt (Chr (N.eqb nl) ;; letterAD ;; Chr (is_char "."))%re Eol)
           s3 s5 Hlook).
  rewrite E. simpl. discriminate.
Qed.

(** What [jsonRegex] matches starts with the opening bracket. *)
Lemma jsonRegex_matched (m : mstate * mstate) :
  denotes jsonRegex (fst m) (snd m) -> exists t, matched m = 91%N :: t.
Proof.
  unfold jsonRegex. cbn [denotes].
  intros (s1 & (c & Hc & Hrest & _) & Htail).
  assert (D : denotes (Star true ws ;; Chr (is_char "{") ;; Star true ws ;;
                       Lit (quoted "'question'") ;; Star true anything ;;
                       Chr (is_char "}") ;; Star true ws ;; Chr (is_char "]"))%re
                      s1 (snd m)) by exact Htail.
  apply denotes_text in D. destruct D as (w & Hw & _).
  unfold is_char in Hc. apply N.eqb_eq in Hc. subst c.
  exists w. unfold matched. apply consumed_app. rewrite Hrest, Hw. reflexivity.
Qed.

(** [JSON.parse] of a text that starts with a bracket yields an array, if
    anything. *)
Lemma JSON_parse_bracket (t : jsstring) (v : json) :
  JSON_parse (91%N :: t) = Some v -> exists l, v = JArr l.
Proof.
  unfold JSON_parse, Json.parse.
  destruct (Json.value _ (91%N :: t)) as [[v' r]|] eqn:E; [|discriminate].
  intros H. assert (v' = v) by (destruct (Json.skip_ws r); congruence). subst v'.
  clear H. cbn [Json.value Json.skip_ws Json.is_jws N.eqb Pos.eqb orb] in E.
  destruct (Json.skip_ws t) as [|d t']; [discriminate|].
  destruct (N.eqb d 93).
  - injection E as <- _. eexists; reflexivity.
  - destruct (Json.elements _ _ t) as [[vs s1]|]; [|discriminate].
    injection E as <- _. eexists; reflexivity.
Qed.

(** The JSON tier only ever sees an array: the last-but-one branch of
    [jsonTier] is never taken. *)
Lemma jsonRegex_parses_to_array (mcqText : jsstring) (m : mstate * mstate)
  (v : json) :
  regex_match jsonRegex mcqText = Some m ->
  JSON_parse (matched m) = Some v ->
  exists l, v = JArr l.
Proof.
  intros Hm Hp. apply search_from_sound in Hm. destruct Hm as (_ & D).
  apply jsonRegex_matched in D. destruct D as (t & E).
  rewrite E in Hp. eapply JSON_parse_bracket; eassumption.
Qed.


(** ** Records and their shape *)

Lemma has_shape_to_json (q : Question) :
  shaped q -> has_shape (to_json q) = true.
Proof.
  intros (Hl & H0 & H3). unfold has_shape, to_json.
  change (get_field (lit "options") _) with (Some (JArr (map JStr (options q)))).
  change (get_field (lit "correctAnswer") _) with (Some (JNum (correctAnswer q) 0)).
  cbv beta iota. rewrite length_map, Hl.
  apply Z.leb_le in H0, H3. rewrite H0, H3. reflexivity.
Qed.

Lemma slice_0 {A} (l : list A) (n : nat) : slice l 0 n = firstn n l.
Proof. unfold slice. rewrite Nat.sub_0_r. reflexivity. Qed.

Lemma slice_0_length {A} (l : list A) (n : nat) :
  n <= length l -> length (slice l 0 n) = n.
Proof. intros H. rewrite slice_0, length_firstn. lia. Qed.

Lemma Forall_take {A} (P : A -> Prop) (l : list A) (n : nat) :
  Forall P l -> Forall P (firstn n l).
Proof.
  intros H. revert n. induction H as [|x l Hx _ IH]; intros [|n]; simpl;
    constructor; auto.
Qed.

(** ** The structured-text tier *)

Lemma findCorrectAnswer_range (optionsText : jsstring) :
  (0 <= findCorrectAnswer optionsText <= 3)%Z.
Proof.
  unfold findCorrectAnswer.
  repeat match goal with |- context [if ?b then _ else _] => destruct b end; lia.
Qed.

(** A pass through the loop body leaves [questions] alone or pushes one
    record, whose text is the trimmed capture and which has four options. *)
Lemma questionStep_cases (mcqText : jsstring) (m : mstate * mstate)
  (questions : list Question) :
  questionStep mcqText m questions = questions \/
  exists optionsText opts,
    4 <= length opts /\
    questionStep mcqText m questions =
    questions ++ [mkQuestion (trim (group 1 m)) (slice opts 0 4)
                             (findCorrectAnswer optionsText)].
Proof.
  unfold questionStep.
  destruct (optionsZone mcqText (trim (group 1 m))) as [[|c z]|]; auto.
  destruct (4 <=? length (parseOptions (c :: z))) eqn:E; auto.
  right. exists (c :: z), (parseOptions (c :: z)).
  split; [apply Nat.leb_le; exact E | reflexivity].
Qed.

Lemma questionLoop_Forall (P : Question -> Prop) (mcqText : jsstring)
  (ms : list (mstate * mstate)) :
  Forall (fun m => forall optionsText opts,
              4 <= length opts ->
              P (mkQuestion (trim (group 1 m)) (slice opts 0 4)
                            (findCorrectAnswer optionsText))) ms ->
  forall questions,
    Forall P questions -> Forall P (questionLoop mcqText ms questions).
Proof.
  induction 1 as [|m ms Hm _ IH]; intros questions Hq; simpl; [assumption|].
  destruct (length questions <? 10); [|assumption].
  apply IH.
  destruct (questionStep_cases mcqText m questions) as [-> | (z & o & Ho & ->)];
    [assumption|].
  apply Forall_app; split; [assumption|]. constructor; [|constructor].
  apply Hm; assumption.
Qed.

Lemma questionLoop_length (mcqText : jsstring) (ms : list (mstate * mstate)) :
  forall questions,
    length questions <= 10 -> length (questionLoop mcqText ms questions) <= 10.
Proof.
  induction ms as [|m ms IH]; intros questions Hq; simpl; [assumption|].
  destruct (length questions <? 10) eqn:E; [|assumption].
  apply Nat.ltb_lt in E. apply IH.
  destruct (questionStep_cases mcqText m questions) as [-> | (z & o & Ho & ->)];
    [assumption|].
  rewrite length_app. simpl. lia.
Qed.

Lemma structuredQuestions_length (mcqText : jsstring) :
  length (structuredQuestions mcqText) <= 10.
Proof. apply questionLoop_length. simpl. lia. Qed.

Lemma structuredQuestions_shaped (mcqText : jsstring) :
  Forall shaped (structuredQuestions mcqText).
Proof.
  apply questionLoop_Forall; [|constructor].
  apply Forall_forall. intros m _ z o Ho. split; simpl.
  - apply slice_0_length; assumption.
  - apply findCorrectAnswer_range.
Qed.

Lemma structuredQuestions_qmark (mcqText : jsstring) :
  Forall (fun q => ends_with_qmark (question q)) (structuredQuestions mcqText).
Proof.
  apply questionLoop_Forall; [|constructor].
  unfold matchAll.
  eapply Forall_impl; [|apply (match_all_go_sound questionRegex)].
  intros m (_ & D) z o _. simpl.
  apply trim_keeps_qmark, questionRegex_group, D.
Qed.


(** ** Arrays: [indexOf] and [splice] *)

Lemma indexOf_bounds (l : list jsstring) (x : jsstring) :
  (-1 <= indexOf l x < Z.of_nat (length l))%Z.
Proof.
  induction l as [|y l IH]; simpl length; cbn [indexOf]; [lia|].
  destruct (str_eqb y x); [lia|].
  destruct (indexOf l x <? 0)%Z eqn:E; [lia|].
  apply Z.ltb_ge in E. lia.
Qed.

Lemma indexOf_In (l : list jsstring) (x : jsstring) :
  In x l -> (0 <= indexOf l x)%Z.
Proof.
  induction l as [|y l IH]; intros H; cbn [indexOf]; [destruct H|].
  destruct (str_eqb y x) eqn:E; [lia|].
  destruct H as [-> | H]; [rewrite str_eqb_refl in E; discriminate|].
  apply IH in H. destruct (indexOf l x <? 0)%Z eqn:E'; [|lia].
  apply Z.ltb_lt in E'. lia.
Qed.

(** [indexOf] returns the first position that holds the value. *)
Lemma indexOf_first (l : list jsstring) (x : jsstring) :
  (0 <= indexOf l x)%Z ->
  nth_error l (Z.to_nat (indexOf l x)) = Some x /\
  forall j, j < Z.to_nat (indexOf l x) -> nth_error l j <> Some x.
Proof.
  induction l as [|y l IH]; cbn [indexOf]; [lia|].
  destruct (str_eqb y x) eqn:E.
  - intros _. apply str_eqb_eq in E. subst y. split; [reflexivity|].
    simpl. intros j Hj. lia.
  - destruct (indexOf l x <? 0)%Z eqn:E'; [lia|].
    apply Z.ltb_ge in E'. intros _. destruct (IH E') as (Hn & Hf).
    replace (Z.to_nat (indexOf l x + 1)) with (S (Z.to_nat (indexOf l x))) by lia.
    split; [exact Hn|].
    intros [|j] Hj; simpl.
    + intros H. injection H as ->. rewrite str_eqb_refl in E. discriminate.
    + apply Hf. lia.
Qed.

Lemma splice_insert_length {A} (l : list A) (pos : nat) (x : A) :
  length (splice_insert l pos x) = S (length l).
Proof.
  unfold splice_insert. rewrite length_app. simpl.
  rewrite Nat.add_succ_r, <- length_app, firstn_skipn. reflexivity.
Qed.

Lemma splice_insert_In {A} (l : list A) (pos : nat) (x : A) :
  In x (splice_insert l pos x).
Proof. unfold splice_insert. apply in_or_app. right. left. reflexivity. Qed.

(** ** The heuristic fallback *)

Section Fallback.

Variable toLowerCase : jsstring -> jsstring.
Variable random : nat -> nat.

Lemma randomBelow_lt (n i : nat) : 0 < n -> fst (randomBelow random n i) < n.
Proof. intros H. simpl. apply Nat.mod_upper_bound. lia. Qed.

Lemma randomBelow_state (n i : nat) : snd (randomBelow random n i) = S i.
Proof. reflexivity. Qed.

Lemma harvest_length (avoid : list jsstring) (i : nat) (todo : list jsstring) :
  forall j options,
    length options <= 3 ->
    length (harvest toLowerCase avoid i j todo options) <= 3.
Proof.
  induction todo as [|sj todo IH]; intros j options H; simpl; [assumption|].
  destruct (length options <? 3) eqn:E; [|assumption].
  apply Nat.ltb_lt in E. apply IH.
  destruct (negb (i =? j) && (15 <? length sj)); [|assumption].
  destruct (scanWords _ _ _ _ _ _); [|assumption].
  rewrite length_app. simpl. lia.
Qed.

Lemma padOptions_length (fuel : nat) :
  forall options,
    length options <= 3 -> 3 <= length options + fuel ->
    length (padOptions fuel options) = 3.
Proof.
  induction fuel as [|f IH]; intros options H1 H2; simpl; [lia|].
  destruct (length options <? 3) eqn:E.
  - apply Nat.ltb_lt in E. apply IH; rewrite length_app; simpl; lia.
  - apply Nat.ltb_ge in E. lia.
Qed.

(** Three options are in the list when the correct one is inserted. *)
Lemma distractors_length (sentences : list jsstring) (i : nat)
  (sentence : jsstring) :
  length (distractors toLowerCase sentences i sentence) = 3.
Proof.
  unfold distractors. apply padOptions_length.
  - apply harvest_length. simpl. lia.
  - lia.
Qed.

(** The record of a sentence, spelled out. *)
Lemma sentenceQuestion_eq (sentences : list jsstring) (i : nat)
  (sentence : jsstring) (n : nat) :
  let ds := distractors toLowerCase sentences i sentence in
  let c := fst (chooseCorrect random sentence n) in
  let n1 := snd (chooseCorrect random sentence n) in
  let pos := fst (randomBelow random 4 n1) in
  let opts := splice_insert ds pos c in
  sentenceQuestion toLowerCase random sentences i sentence n =
  (mkQuestion (if endsWith sentence (lit "?") then sentence
               else sentence ++ lit "?")
              opts (indexOf opts c),
   S n1).
Proof.
  intros ds c n1 pos opts.
  unfold sentenceQuestion, bind, ret.
  fold ds. subst c n1. destruct (chooseCorrect random sentence n) as [c n1].
  simpl fst in *. simpl snd in *. subst pos opts.
  cbn [randomBelow fst]. rewrite slice_0.
  rewrite firstn_all2; [reflexivity|].
  rewrite splice_insert_length. unfold ds. rewrite distractors_length. lia.
Qed.

Lemma sentenceQuestion_shaped (sentences : list jsstring) (i : nat)
  (sentence : jsstring) (n : nat) :
  shaped (fst (sentenceQuestion toLowerCase random sentences i sentence n)).
Proof.
  rewrite sentenceQuestion_eq. cbn [fst]. split; cbn [options correctAnswer].
  - rewrite splice_insert_length, distractors_length. reflexivity.
  - match goal with |- context [indexOf ?l ?x] =>
      pose proof (indexOf_bounds l x) as Hb;
      pose proof (indexOf_In l x (splice_insert_In _ _ _)) as Hi;
      rewrite splice_insert_length, distractors_length in Hb
    end. lia.
Qed.

Lemma sentenceQuestion_qmark (sentences : list jsstring) (i : nat)
  (sentence : jsstring) (n : nat) :
  ends_with_qmark
    (question (fst (sentenceQuestion toLowerCase random sentences i sentence n))).
Proof.
  rewrite sentenceQuestion_eq. cbn [fst question].
  destruct (endsWith sentence (lit "?")) eqn:E.
  - apply endsWith_qmark; assumption.
  - exists sentence; reflexivity.
Qed.

Lemma sentenceLoop_Forall (P : Question -> Prop) (count : nat)
  (sentences : list jsstring) :
  (forall i sentence n,
      P (fst (sentenceQuestion toLowerCase random sentences i sentence n))) ->
  forall todo i questionIndex questions n,
    Forall P questions ->
    Forall P (fst (sentenceLoop toLowerCase random count sentences i todo
                                questionIndex questions n)).
Proof.
  intros HP todo. induction todo as [|s todo IH];
    intros i qi questions n Hq; simpl; [assumption|].
  destruct (qi <? count); [|assumption].
  destruct (includes (trim s) (lit "?") || (30 <? length (trim s))).
  - unfold bind.
    pose proof (HP i (trim s) n) as Hnew.
    destruct (sentenceQuestion toLowerCase random sentences i (trim s) n)
      as [q n'].
    apply IH. apply Forall_app; split; [assumption|].
    constructor; [exact Hnew | constructor].
  - apply IH; assumption.
Qed.

Lemma genericQuestion_qmark (idx c : nat) :
  ends_with_qmark (question (genericQuestion idx c)).
Proof.
  exists (lit "Question " ++ decimal (idx + 1) ++ lit " related to the subject").
  unfold genericQuestion. cbn [question]. rewrite <- !app_assoc. reflexivity.
Qed.

Lemma fillLoop_Forall (P : Question -> Prop) (count : nat) :
  (forall idx c, c < 4 -> P (genericQuestion idx c)) ->
  forall fuel questions n,
    Forall P questions ->
    Forall P (fst (fillLoop random fuel count questions n)).
Proof.
  intros HP fuel. induction fuel as [|f IH]; intros questions n Hq; simpl;
    [assumption|].
  destruct (length questions <? count); [|assumption].
  unfold bind. cbn [randomBelow]. apply IH.
  apply Forall_app; split; [assumption|].
  constructor; [|constructor]. apply HP. apply Nat.mod_upper_bound. lia.
Qed.

(** The filling loop stops with at least [count] records. *)
Lemma fillLoop_length (count fuel : nat) :
  forall questions n,
    count <= length questions + fuel ->
    count <= length (fst (fillLoop random fuel count questions n)).
Proof.
  induction fuel as [|f IH]; intros questions n H; simpl; [lia|].
  destruct (length questions <? count) eqn:E.
  - unfold bind. cbn [randomBelow]. apply IH. rewrite length_app. simpl. lia.
  - apply Nat.ltb_ge in E. simpl. lia.
Qed.

Lemma fallback_unfold (text : jsstring) (count n : nat) :
  exists questions,
    fst (createFallbackQuestionsFromText toLowerCase random text count n) =
    firstn count questions /\
    count <= length questions /\
    (forall P : Question -> Prop,
        (forall sentences i sentence n,
            P (fst (sentenceQuestion toLowerCase random sentences i sentence n))) ->
        (forall idx c, c < 4 -> P (genericQuestion idx c)) ->
        Forall P questions).
Proof.
  unfold createFallbackQuestionsFromText, bind, ret.
  set (sentences := regex_split sentenceEndRegex text).
  pose proof (fun P H => @sentenceLoop_Forall P count sentences (H sentences)
                           sentences 0 0 [] n (Forall_nil P)) as H1.
  destruct (sentenceLoop toLowerCase random count sentences 0 sentences 0 [] n)
    as [qs n1].
  pose proof (@fillLoop_length count count qs n1 ltac:(lia)) as H2.
  pose proof (fun P H => @fillLoop_Forall P count H count qs n1) as H3.
  destruct (fillLoop random count count qs n1) as [qs' n2].
  cbn [fst] in *. exists qs'. rewrite slice_0.
  split; [reflexivity|]. split; [assumption|].
  intros P Hs Hg. apply H3; [assumption|]. apply H1. assumption.
Qed.

(** The fallback always delivers exactly [count] records. *)
Lemma fallback_length (text : jsstring) (count n : nat) :
  length (fst (createFallbackQuestionsFromText toLowerCase random text count n))
  = count.
Proof.
  destruct (fallback_unfold text count n) as (qs & -> & Hl & _).
  rewrite length_firstn. lia.
Qed.

Lemma fallback_Forall (P : Question -> Prop) (text : jsstring) (count n : nat) :
  (forall sentences i sentence n,
      P (fst (sentenceQuestion toLowerCase random sentences i sentence n))) ->
  (forall idx c, c < 4 -> P (genericQuestion idx c)) ->
  Forall P (fst (createFallbackQuestionsFromText toLowerCase random text count n)).
Proof.
  intros Hs Hg. destruct (fallback_unfold text count n) as (qs & -> & _ & H).
  apply Forall_take. apply H; assumption.
Qed.

Lemma fallback_shaped (text : jsstring) (count n : nat) :
  Forall shaped
    (fst (createFallbackQuestionsFromText toLowerCase random text count n)).
Proof.
  apply fallback_Forall.
  - intros; apply sentenceQuestion_shaped.
  - intros idx c Hc. split; simpl; [reflexivity | lia].
Qed.

Lemma fallback_qmark (text : jsstring) (count n : nat) :
  Forall (fun q => ends_with_qmark (question q))
    (fst (createFallbackQuestionsFromText toLowerCase random text count n)).
Proof.
  apply fallback_Forall.
  - intros; apply sentenceQuestion_qmark.
  - intros; apply genericQuestion_qmark.
Qed.

End Fallback.


(** ** The tiers of [parseMCQQuestions] *)

Lemma jsonTier_returns (mcqText : jsstring) (result : list json) :
  jsonTier mcqText = Normal (Some result) ->
  exists m parsed,
    regex_match jsonRegex mcqText = Some m /\
    JSON_parse (matched m) = Some (JArr parsed) /\
    10 <= length parsed /\ result = firstn 10 parsed.
Proof.
  unfold jsonTier.
  destruct (regex_match jsonRegex mcqText) as [m|] eqn:Hm; [|discriminate].
  destruct (JSON_parse (matched m)) as [[ | | | |parsed| ]|] eqn:Hp;
    try discriminate.
  destruct (10 <=? length parsed) eqn:E; [|discriminate].
  intros H. injection H as <-. exists m, parsed.
  rewrite slice_0. apply Nat.leb_le in E. repeat split; auto.
Qed.

Lemma jsonTier_throws (mcqText : jsstring) :
  jsonTier mcqText = Throw <->
  exists m, regex_match jsonRegex mcqText = Some m /\
            JSON_parse (matched m) = None.
Proof.
  unfold jsonTier. split.
  - destruct (regex_match jsonRegex mcqText) as [m|] eqn:Hm; [|discriminate].
    destruct (JSON_parse (matched m)) as [[ | | | |parsed| ]|] eqn:Hp;
      try discriminate.
    + destruct (10 <=? length parsed); discriminate.
    + intros _. exists m; auto.
  - intros (m & -> & ->). reflexivity.
Qed.

Section Tiers.

Variable toLowerCase : jsstring -> jsstring.
Variable random : nat -> nat.

Lemma parse_when_json_returns (mcqText : jsstring) (result : list json) (n : nat) :
  jsonTier mcqText = Normal (Some result) ->
  parseMCQQuestions toLowerCase random mcqText n = (result, n).
Proof.
  intros H. unfold parseMCQQuestions, tryBlock. rewrite H. reflexivity.
Qed.

Lemma parse_when_json_throws (mcqText : jsstring) (n : nat) :
  jsonTier mcqText = Throw ->
  parseMCQQuestions toLowerCase random mcqText n =
  fallbackTier toLowerCase random mcqText n.
Proof.
  intros H. unfold parseMCQQuestions, tryBlock. rewrite H. reflexivity.
Qed.

Lemma parse_when_json_falls_through (mcqText : jsstring) (n : nat) :
  jsonTier mcqText = Normal None ->
  parseMCQQuestions toLowerCase random mcqText n =
  structuredTier toLowerCase random mcqText n.
Proof.
  intros H. unfold parseMCQQuestions, tryBlock. rewrite H. reflexivity.
Qed.

Lemma structuredTier_accepts (mcqText : jsstring) (n : nat) :
  5 <= length (structuredQuestions mcqText) ->
  structuredTier toLowerCase random mcqText n =
  (map to_json (structuredQuestions mcqText), n).
Proof.
  intros H. unfold structuredTier. apply Nat.leb_le in H. rewrite H.
  rewrite slice_0, firstn_all2 by apply structuredQuestions_length.
  reflexivity.
Qed.

Lemma structuredTier_rejects (mcqText : jsstring) (n : nat) :
  length (structuredQuestions mcqText) < 5 ->
  structuredTier toLowerCase random mcqText n =
  fallbackTier toLowerCase random mcqText n.
Proof.
  intros H. unfold structuredTier.
  destruct (5 <=? length (structuredQuestions mcqText)) eqn:E; [|reflexivity].
  apply Nat.leb_le in E. lia.
Qed.

Lemma fallbackTier_fst (mcqText : jsstring) (n : nat) :
  fst (fallbackTier toLowerCase random mcqText n) =
  map to_json
      (fst (createFallbackQuestionsFromText toLowerCase random mcqText 10 n)).
Proof.
  unfold fallbackTier, bind, ret.
  destruct (createFallbackQuestionsFromText toLowerCase random mcqText 10 n).
  reflexivity.
Qed.

Lemma fallbackTier_length (mcqText : jsstring) (n : nat) :
  length (fst (fallbackTier toLowerCase random mcqText n)) = 10.
Proof. rewrite fallbackTier_fst, length_map. apply fallback_length. Qed.

(** Which tier answers, and with what. *)
Lemma parse_cases (mcqText : jsstring) (n : nat) :
  (exists parsed,
      10 <= length parsed /\
      jsonTier mcqText = Normal (Some (firstn 10 parsed)) /\
      parseMCQQuestions toLowerCase random mcqText n = (firstn 10 parsed, n))
  \/ (jsonTier mcqText = Normal None /\
      5 <= length (structuredQuestions mcqText) /\
      parseMCQQuestions toLowerCase random mcqText n =
      (map to_json (structuredQuestions mcqText), n))
  \/ ((jsonTier mcqText = Throw \/
       jsonTier mcqText = Normal None /\ length (structuredQuestions mcqText) < 5)
      /\ parseMCQQuestions toLowerCase random mcqText n =
         fallbackTier toLowerCase random mcqText n).
Proof.
  destruct (jsonTier mcqText) as [[result|]|] eqn:E.
  - left. destruct (jsonTier_returns _ E) as (m & parsed & _ & _ & Hl & ->).
    exists parsed. split; [assumption|]. split; [reflexivity|].
    apply parse_when_json_returns; assumption.
  - right. rewrite (parse_when_json_falls_through _ n E).
    destruct (Nat.le_gt_cases 5 (length (structuredQuestions mcqText))) as [H|H].
    + left. split; [reflexivity|]. split; [assumption|].
      apply structuredTier_accepts; assumption.
    + right. split; [right; split; [reflexivity | assumption]|].
      apply structuredTier_rejects; assumption.
  - right; right. split; [left; reflexivity|].
    apply parse_when_json_throws; assumption.
Qed.

End Tiers.


(** * The claims *)

(** ** C1: how many records come back *)



(** ** C2: the shape of the records *)

(** C2, at a concrete input.  A valid array of ten elements is returned as
    parsed, although none of its elements has four options and an index in
    range. *)
Lemma json_tier_returns_ill_shaped_records :
  ~ Forall (fun v => has_shape v = true)
      (fst (parseMCQQuestions asciiLowerCase zeros ill_shaped_json_text 0)).
Proof.
  intros H. vm_compute in H. apply Forall_inv in H. discriminate.
Qed.

(** C2, amended.  For every input string on which the JSON tier does not
    return, every record returned has exactly four options and a
    [correctAnswer] among 0, 1, 2, 3.  (What the JSON tier returns is what
    [JSON.parse] produced, unchecked.) *)
Theorem records_shaped_unless_json (toLowerCase : jsstring -> jsstring)
  (random : nat -> nat) (mcqText : jsstring) (n : nat) :
  (forall result, jsonTier mcqText <> Normal (Some result)) ->
  Forall (fun v => has_shape v = true)
         (fst (parseMCQQuestions toLowerCase random mcqText n)).
Proof.
  intros Hj.
  destruct (parse_cases toLowerCase random mcqText n)
    as [(parsed & _ & E & _) | [(_ & _ & ->) | (_ & ->)]].
  - destruct (Hj _ E).
  - cbn [fst]. apply Forall_map.
    eapply Forall_impl; [|apply structuredQuestions_shaped].
    intros q; apply has_shape_to_json.
  - rewrite fallbackTier_fst. apply Forall_map.
    eapply Forall_impl; [|apply fallback_shaped].
    intros q; apply has_shape_to_json.
Qed.

Lemma records_shaped_unless_json_witness :
  Forall (fun v => has_shape v = true)
         (fst (parseMCQQuestions asciiLowerCase counting five_questions 0)).
Proof.
  apply (@records_shaped_unless_json asciiLowerCase counting five_questions 0).
  intros result. vm_compute. discriminate.
Defined.

(** ** C3: the JSON tier *)

(** C3, at a concrete input.  [eleven_json_with_afterthought] contains the
    array [eleven_array], which the pattern matches in full and which parses
    to eleven records.  But the pattern is greedy: in the whole text it runs
    on to the last closing brace and bracket, those of the afterthought;
    [JSON.parse] throws on that, and the function returns the records of the
    fallback, not the first ten elements of the array. *)
Lemma afterthought_defeats_json_tier :
  (exists before after,
      eleven_json_with_afterthought = before ++ eleven_array ++ after) /\
  option_map matched (regex_match jsonRegex eleven_array) = Some eleven_array /\
  JSON_parse eleven_array = Some (JArr eleven_parsed) /\
  10 <= length eleven_parsed /\
  jsonTier eleven_json_with_afterthought = Throw /\
  fst (parseMCQQuestions asciiLowerCase zeros eleven_json_with_afterthought 0)
  <> firstn 10 eleven_parsed.
Proof.
  split; [eexists _, _; reflexivity|].
  split; [vm_compute; reflexivity|].
  split; [vm_compute; reflexivity|].
  split; [vm_compute; repeat constructor|].
  split; [vm_compute; reflexivity|].
  intros H. apply (f_equal (@hd json JNull)) in H.
  vm_compute in H. discriminate.
Qed.

(** C3, amended.  When the text the pattern locates, from the first opening
    of an array of question objects to the last closing brace and bracket of
    the input, parses to an array, the function returns the first ten
    elements of that array, as parsed, if there are at least ten, and
    otherwise goes on with the structured-text tier. *)
Theorem json_tier_first_ten (toLowerCase : jsstring -> jsstring)
  (random : nat -> nat) (mcqText : jsstring) (m : mstate * mstate)
  (parsed : list json) (n : nat) :
  regex_match jsonRegex mcqText = Some m ->
  JSON_parse (matched m) = Some (JArr parsed) ->
  (10 <= length parsed ->
   parseMCQQuestions toLowerCase random mcqText n = (firstn 10 parsed, n)) /\
  (length parsed < 10 ->
   parseMCQQuestions toLowerCase random mcqText n =
   structuredTier toLowerCase random mcqText n).
Proof.
  intros Hm Hp. split; intros Hl.
  - apply parse_when_json_returns. unfold jsonTier. rewrite Hm, Hp.
    apply Nat.leb_le in Hl. rewrite Hl, slice_0. reflexivity.
  - apply parse_when_json_falls_through. unfold jsonTier. rewrite Hm, Hp.
    destruct (10 <=? length parsed) eqn:E; [|reflexivity].
    apply Nat.leb_le in E. lia.
Qed.

Lemma json_tier_first_ten_witness :
  (10 <= length eleven_parsed ->
   parseMCQQuestions asciiLowerCase zeros eleven_json_text 0 =
   (firstn 10 eleven_parsed, 0)) /\
  (length eleven_parsed < 10 ->
   parseMCQQuestions asciiLowerCase zeros eleven_json_text 0 =
   structuredTier asciiLowerCase zeros eleven_json_text 0).
Proof.
  eapply json_tier_first_ten.
  - vm_compute. reflexivity.
  - vm_compute. reflexivity.
Defined.

(** ** C4: an exception in the JSON tier *)

(** What happens to an exception of [JSON.parse]: the handler of the
    function catches it and the function returns what the heuristic fallback
    generator produces; the structured-text tier, which shares the [try]
    block with the JSON tier, is not run. *)
Lemma json_exception_goes_to_fallback (toLowerCase : jsstring -> jsstring)
  (random : nat -> nat) (mcqText : jsstring) (m : mstate * mstate) (n : nat) :
  regex_match jsonRegex mcqText = Some m ->
  JSON_parse (matched m) = None ->
  parseMCQQuestions toLowerCase random mcqText n =
  fallbackTier toLowerCase random mcqText n.
Proof.
  intros Hm Hp. apply parse_when_json_throws, jsonTier_throws.
  exists m; auto.
Qed.

(** C4, evaluated.  In [malformed_json_text] the pattern locates an array on
    which [JSON.parse] throws, and five well-formed numbered questions
    follow.  The exception does not reach the caller, but control does not
    fall through to the structured-text tier either: that tier would accept
    its five records, and the function returns the ten records of the
    heuristic fallback generator instead. *)
Theorem malformed_json_skips_structured_tier :
  jsonTier malformed_json_text = Throw /\
  length (structuredQuestions malformed_json_text) = 5 /\
  parseMCQQuestions asciiLowerCase zeros malformed_json_text 0 =
  fallbackTier asciiLowerCase zeros malformed_json_text 0 /\
  length (fst (fallbackTier asciiLowerCase zeros malformed_json_text 0)) = 10 /\
  parseMCQQuestions asciiLowerCase zeros malformed_json_text 0 <>
  structuredTier asciiLowerCase zeros malformed_json_text 0.
Proof.
  split; [vm_compute; reflexivity|].
  split; [vm_compute; reflexivity|].
  split; [vm_compute; reflexivity|].
  split; [vm_compute; reflexivity|].
  intros H. apply (f_equal (fun r => length (fst r))) in H.
  vm_compute in H. discriminate.
Qed.

(** ** C5: the acceptance policy of the structured-text tier *)

(** C5.  When the JSON tier falls through: if the structured tier
    accumulated five or more records, the function returns up to ten of them
    (all of them, as the loop stops at ten) and nothing from the fallback, no
    random number being drawn; if it accumulated fewer than five, the
    function returns what the heuristic fallback generator produces. *)
Theorem structured_tier_policy (toLowerCase : jsstring -> jsstring)
  (random : nat -> nat) (mcqText : jsstring) (n : nat) :
  jsonTier mcqText = Normal None ->
  let questions := structuredQuestions mcqText in
  (5 <= length questions ->
   parseMCQQuestions toLowerCase random mcqText n =
   (map to_json (firstn 10 questions), n) /\
   length (firstn 10 questions) = length questions) /\
  (length questions < 5 ->
   parseMCQQuestions toLowerCase random mcqText n =
   fallbackTier toLowerCase random mcqText n).
Proof.
  intros Hj questions. rewrite (parse_when_json_falls_through _ _ _ n Hj).
  subst questions. split; intros H.
  - rewrite firstn_all2 by apply structuredQuestions_length.
    split; [apply structuredTier_accepts; assumption | reflexivity].
  - apply structuredTier_rejects; assumption.
Qed.

Lemma structured_tier_policy_witness :
  parseMCQQuestions asciiLowerCase zeros five_questions 0 =
  (map to_json (firstn 10 (structuredQuestions five_questions)), 0) /\
  length (firstn 10 (structuredQuestions five_questions)) = 5.
Proof.
  destruct (@structured_tier_policy asciiLowerCase zeros five_questions 0)
    as [Haccept _].
  - vm_compute. reflexivity.
  - destruct Haccept as [Hresult Hlength].
    + vm_compute. repeat constructor.
    + split; [exact Hresult|]. rewrite Hlength. vm_compute. reflexivity.
Defined.

(** ** C6: the marker of the correct answer *)

(** C6, evaluated.  On a zone that says [Correct answer: B] the program
    answers 0: the test for the letter A comes first, its pattern is
    case-insensitive and all its middle parts are optional, so it matches
    [Correct a], the [a] being that of the word [answer].  Read as one search
    that captures the letter, as the specification words it, the marker gives
    1.  On [answer_marker_text] all five records come out with index 0.
    The literal form [Correct: B] is read as 1, and a zone without the word
    gets 0. *)
Theorem answer_marker_B_read_as_A :
  findCorrectAnswer (lit "Correct answer: B") = 0%Z /\
  spec_correctIndex (lit "Correct answer: B") = 1%Z /\
  map correctAnswer (structuredQuestions answer_marker_text) =
  [0; 0; 0; 0; 0]%Z /\
  findCorrectAnswer (lit "Correct: B") = 1%Z /\
  findCorrectAnswer (lit "no marker here") = 0%Z.
Proof. vm_compute. repeat split; reflexivity. Qed.

(** With the literal marker at the end of the line of option D, the six
    questions are recovered with index 1. *)
Lemma inline_marker_B_gives_index_1 :
  map correctAnswer (structuredQuestions six_questions_marker_inline) =
  [1; 1; 1; 1; 1; 1]%Z.
Proof. vm_compute. reflexivity. Qed.

(** With the marker on a line of its own after option D, the index found
    for the zone is 1, but [optionRegex] no longer matches the line of option
    D (its text must be followed by a lettered line or the end of the zone):
    three options are captured and no question is accepted. *)
Lemma marker_on_its_own_line_drops_the_questions :
  findCorrectAnswer
    (unlines [EmptyString; "A. a"; "B. b"; "C. c"; "D. d"; "Correct: B"]%string)
  = 1%Z /\
  length
    (parseOptions
       (unlines [EmptyString; "A. a"; "B. b"; "C. c"; "D. d"; "Correct: B"]%string))
  = 3 /\
  structuredQuestions six_questions_marker_line = [].
Proof. vm_compute. repeat split; reflexivity. Qed.

(** ** C7: where the fallback puts the correct option *)

(** C7.  For the record the fallback makes from a sentence: three
    distractors are in the list, the chosen phrase is inserted at a position
    from 0 to 3, the option list has four elements, and [correctAnswer] is
    the first position of the chosen phrase in that list; so it is between 0
    and 3 and the option at that position is the chosen phrase. *)
Theorem fallback_correct_option_position (toLowerCase : jsstring -> jsstring)
  (random : nat -> nat) (sentences : list jsstring) (i : nat)
  (sentence : jsstring) (n : nat) :
  let ds := distractors toLowerCase sentences i sentence in
  let chosen := fst (chooseCorrect random sentence n) in
  let pos := fst (randomBelow random 4 (snd (chooseCorrect random sentence n))) in
  let q := fst (sentenceQuestion toLowerCase random sentences i sentence n) in
  length ds = 3 /\ pos <= 3 /\
  options q = firstn pos ds ++ chosen :: skipn pos ds /\
  length (options q) = 4 /\
  correctAnswer q = indexOf (options q) chosen /\
  (0 <= correctAnswer q <= 3)%Z /\
  nth_error (options q) (Z.to_nat (correctAnswer q)) = Some chosen /\
  forall j, j < Z.to_nat (correctAnswer q) ->
            nth_error (options q) j <> Some chosen.
Proof.
  intros ds chosen pos q.
  assert (Hq : q = mkQuestion (question q) (splice_insert ds pos chosen)
                              (indexOf (splice_insert ds pos chosen) chosen)).
  { subst q. rewrite sentenceQuestion_eq. reflexivity. }
  assert (Hds : length ds = 3) by apply distractors_length.
  assert (Hpos : pos < 4) by (apply randomBelow_lt; lia).
  rewrite Hq. cbn [options correctAnswer].
  assert (Hlen : length (splice_insert ds pos chosen) = 4)
    by (rewrite splice_insert_length, Hds; reflexivity).
  pose proof (indexOf_bounds (splice_insert ds pos chosen) chosen) as Hb.
  pose proof (indexOf_In _ _ (splice_insert_In ds pos chosen)) as Hi.
  destruct (indexOf_first _ _ Hi) as (Hnth & Hfirst).
  rewrite Hlen in Hb.
  repeat split; try assumption; try reflexivity; lia.
Qed.

(** ** C8: the JSON tier is deterministic *)

(** C8.  On a text on which the JSON tier returns, any two runs, whatever
    the random source and the state it is in, return the same records, and
    neither draws a random number. *)
Theorem json_tier_deterministic (lower1 lower2 : jsstring -> jsstring)
  (random1 random2 : nat -> nat) (n1 n2 : nat) (mcqText : jsstring)
  (result : list json) :
  jsonTier mcqText = Normal (Some result) ->
  fst (parseMCQQuestions lower1 random1 mcqText n1) =
  fst (parseMCQQuestions lower2 random2 mcqText n2) /\
  snd (parseMCQQuestions lower1 random1 mcqText n1) = n1 /\
  snd (parseMCQQuestions lower2 random2 mcqText n2) = n2.
Proof.
  intros H. rewrite !(parse_when_json_returns _ _ _ _ H). auto.
Qed.

Lemma json_tier_deterministic_witness :
  fst (parseMCQQuestions asciiLowerCase zeros eleven_json_text 0) =
  fst (parseMCQQuestions (fun s => s) counting eleven_json_text 7).
Proof.
  eapply json_tier_deterministic.
  vm_compute. reflexivity.
Defined.

(** ** C9: never more than ten records *)

(** C9.  For every input string, the function returns at most ten
    records. *)
Theorem parse_at_most_ten (toLowerCase : jsstring -> jsstring)
  (random : nat -> nat) (mcqText : jsstring) (n : nat) :
  length (fst (parseMCQQuestions toLowerCase random mcqText n)) <= 10.
Proof.
  destruct (parse_cases toLowerCase random mcqText n)
    as [(parsed & _ & _ & ->) | [(_ & _ & ->) | (_ & ->)]].
  - cbn [fst]. rewrite length_firstn. lia.
  - cbn [fst]. rewrite length_map. apply structuredQuestions_length.
  - rewrite fallbackTier_length. lia.
Qed.

(** ** C10: question texts end with a question mark *)

(** C10.  Every record the structured-text tier accumulates and every
    record the heuristic fallback generator produces, for any count, has a
    question text that ends with a question mark. *)
Theorem questions_end_with_qmark (toLowerCase : jsstring -> jsstring)
  (random : nat -> nat) (text : jsstring) (count n : nat) :
  Forall (fun q => ends_with_qmark (question q)) (structuredQuestions text) /\
  Forall (fun q => ends_with_qmark (question q))
         (fst (createFallbackQuestionsFromText toLowerCase random text count n)).
Proof.
  split; [apply structuredQuestions_qmark | apply fallback_qmark].
Qed.


(** * Further properties *)

(** ** Where a match lies in the text *)

Lemma denotes_length (r : regex) (s s' : mstate) :
  denotes r s s' -> length (rest s') <= length (rest s).
Proof.
  intros H. apply denotes_text in H. destruct H as (w & -> & _).
  rewrite length_app. lia.
Qed.

Lemma denotes_whole (r : regex) (s s' : mstate) :
  denotes r s s' -> rev (seen s') ++ rest s' = rev (seen s) ++ rest s.
Proof.
  intros H. apply denotes_text in H. destruct H as (w & -> & ->).
  rewrite rev_app_distr, rev_involutive, <- app_assoc. reflexivity.
Qed.

Lemma match_at_start (r : regex) (sn rs : jsstring) (m : mstate * mstate) :
  match_at r sn rs = Some m -> seen (fst m) = sn /\ rest (fst m) = rs.
Proof.
  unfold match_at. destruct (rmatch r Some _); [|discriminate].
  intros E; injection E as <-. auto.
Qed.

Lemma search_from_whole (r : regex) (rs : jsstring) :
  forall sn m, search_from r sn rs = Some m ->
               rev (seen (fst m)) ++ rest (fst m) = rev sn ++ rs.
Proof.
  induction rs as [|c t IH]; intros sn m H; simpl in H.
  - destruct (match_at r sn []) as [m'|] eqn:E; [|discriminate].
    injection H as <-. apply match_at_start in E. destruct E as (-> & ->).
    reflexivity.
  - destruct (match_at r sn (c :: t)) as [m'|] eqn:E.
    + injection H as <-. apply match_at_start in E. destruct E as (-> & ->).
      reflexivity.
    + apply IH in H. rewrite H. simpl. rewrite <- app_assoc. reflexivity.
Qed.

(** Every match of a search lies in the text searched and satisfies the
    pattern. *)
Lemma match_all_go_whole (r : regex) (fuel : nat) :
  forall sn rs,
    Forall (fun m => rev (seen (fst m)) ++ rest (fst m) = rev sn ++ rs /\
                     denotes r (fst m) (snd m))
           (match_all_go fuel r sn rs).
Proof.
  induction fuel as [|f IH]; intros sn rs; simpl; [constructor|].
  destruct (search_from r sn rs) as [m|] eqn:E; [|constructor].
  pose proof (search_from_whole _ _ _ E) as Hw.
  apply search_from_sound in E. destruct E as (_ & D).
  pose proof (denotes_whole _ _ _ D) as Hd.
  constructor; [auto|].
  destruct (length (rest (snd m)) <? length (rest (fst m))).
  - eapply Forall_impl; [|apply IH]. intros m' (H1 & H2). split; [|exact H2].
    rewrite H1, Hd, Hw. reflexivity.
  - destruct (rest (snd m)) as [|c t] eqn:Er; [constructor|].
    eapply Forall_impl; [|apply IH]. intros m' (H1 & H2). split; [|exact H2].
    rewrite H1. simpl. rewrite <- app_assoc. simpl. rewrite Hd, Hw. reflexivity.
Qed.

Lemma matchAll_whole (r : regex) (s : jsstring) :
  Forall (fun m => rev (seen (fst m)) ++ rest (fst m) = s /\
                   denotes r (fst m) (snd m))
         (matchAll r s).
Proof. apply (match_all_go_whole r (S (length s)) [] s). Qed.

(** ** Completeness of the matcher on simple patterns *)

Lemma orelse_not_none {A} (x y : option A) :
  x <> None \/ y <> None -> orelse x y <> None.
Proof. destruct x; simpl; [intros _; discriminate | tauto]. Qed.

Lemma consuming_shorter (r : regex) :
  consuming r = true ->
  forall s s', denotes r s s' -> length (rest s') < length (rest s).
Proof.
  induction r as [ | p | a IHa b IHb | a IHa b IHb | g a IHa | n a IHa
                   | | | | a IHa ]; intros Hc s s' H; simpl in Hc;
    try discriminate; simpl in H.
  - destruct H as (c & _ & -> & _). simpl. lia.
  - destruct H as (s1 & H1 & H2).
    pose proof (denotes_length _ _ _ H1). pose proof (denotes_length _ _ _ H2).
    apply orb_true_iff in Hc. destruct Hc as [Hc | Hc].
    + specialize (IHa Hc _ _ H1). lia.
    + specialize (IHb Hc _ _ H2). lia.
  - apply andb_true_iff in Hc. destruct Hc as [Ha Hb].
    destruct H as [H | H]; [apply IHa | apply IHb]; assumption.
Qed.

Lemma star_complete (g : bool) (a : regex) :
  consuming a = true ->
  (forall k s s', denotes a s s' -> k s' <> None -> rmatch a k s <> None) ->
  forall n fuel k s s',
    length (rest s) < fuel ->
    iter n (denotes a) s s' -> k s' <> None ->
    star g (rmatch a) fuel k s <> None.
Proof.
  intros Hc Ha n. induction n as [|n IH]; intros fuel k s s' Hf Hit Hk;
    (destruct fuel as [|f]; [lia|]); simpl in Hit; cbn [star].
  - subst s'. destruct g; apply orelse_not_none; auto.
  - destruct Hit as (s1 & H1 & Hn).
    assert (Hagain :
      rmatch a (fun s' => if length (rest s') <? length (rest s)
                          then star g (rmatch a) f k s' else None) s <> None).
    { apply (Ha _ s s1 H1).
      pose proof (consuming_shorter _ Hc _ _ H1) as Hlt.
      apply Nat.ltb_lt in Hlt. rewrite Hlt. apply Nat.ltb_lt in Hlt.
      apply (IH f k s1 s'); [lia | assumption | assumption]. }
    destruct g; apply orelse_not_none; auto.
Qed.

(** If a simple pattern can match from [s] to a state the continuation
    accepts, the matcher finds a match. *)
Lemma rmatch_complete (r : regex) :
  simple r = true ->
  forall k s s', denotes r s s' -> k s' <> None -> rmatch r k s <> None.
Proof.
  induction r as [ | p | a IHa b IHb | a IHa b IHb | g a IHa | n a IHa
                   | | | | a IHa ]; intros Hs k s s' H Hk; simpl in Hs;
    try discriminate; cbn [rmatch]; simpl in H.
  - subst; assumption.
  - destruct H as (c & Hp & Hr & Hsn & Hc). rewrite Hr, Hp.
    destruct s' as [sn' rs' cs']. simpl in *. subst. assumption.
  - apply andb_true_iff in Hs. destruct Hs as [Sa Sb].
    destruct H as (s1 & H1 & H2).
    apply (IHa Sa _ s s1 H1). apply (IHb Sb _ s1 s' H2 Hk).
  - apply andb_true_iff in Hs. destruct Hs as [Sa Sb].
    apply orelse_not_none. destruct H as [H | H]; [left | right]; eauto.
  - apply andb_true_iff in Hs. destruct Hs as [Sa Ca].
    destruct H as (n & Hn).
    apply (@star_complete g a Ca (IHa Sa) n _ k s s'); [lia | assumption | assumption].
  - destruct H as (Hb & ->). rewrite Hb. assumption.
  - destruct H as (He & ->). rewrite He. assumption.
  - destruct H as (Hw & ->). rewrite Hw. assumption.
Qed.

Lemma search_from_complete (r : regex) (pre : jsstring) :
  forall sn rs,
    match_at r (rev pre ++ sn) rs <> None ->
    search_from r sn (pre ++ rs) <> None.
Proof.
  induction pre as [|c pre IH]; intros sn rs H; simpl in *.
  - destruct rs; simpl; destruct (match_at r sn _); congruence.
  - destruct (match_at r sn (c :: pre ++ rs)); [discriminate|].
    apply IH. rewrite <- app_assoc in H. exact H.
Qed.

(** A simple pattern that can match somewhere in the text is found by
    [s.match]. *)
Lemma regex_match_complete (r : regex) (pre rs : jsstring) (s' : mstate) :
  simple r = true ->
  denotes r (MState (rev pre) rs []) s' ->
  regex_match r (pre ++ rs) <> None.
Proof.
  intros Hs D. unfold regex_match. apply search_from_complete.
  rewrite app_nil_r. unfold match_at.
  pose proof (@rmatch_complete r Hs Some _ s' D ltac:(discriminate)) as H.
  destruct (rmatch r Some _); [discriminate | congruence].
Qed.

(** ** Building matches *)

Lemma LitI_denotes (l : jsstring) :
  forall w sn r cs,
    map ascii_lower w = map ascii_lower l ->
    denotes (LitI l) (MState sn (w ++ r) cs) (MState (rev w ++ sn) r cs).
Proof.
  induction l as [|c l IH]; intros [|x w] sn r cs H; try discriminate.
  - reflexivity.
  - simpl in H. injection H as Hx Hw.
    cbn [LitI denotes]. exists (MState (x :: sn) (w ++ r) cs). split.
    + exists x. simpl. rewrite Hx, N.eqb_refl. auto.
    + simpl. rewrite <- app_assoc. apply IH. assumption.
Qed.

Lemma star_chr_denotes (g : bool) (p : char -> bool) (w : jsstring) :
  forall sn r cs,
    Forall (fun c => p c = true) w ->
    denotes (Star g (Chr p)) (MState sn (w ++ r) cs) (MState (rev w ++ sn) r cs).
Proof.
  induction w as [|c w IH]; intros sn r cs H.
  - exists 0. reflexivity.
  - inversion H as [|? ? Hc Hw]; subst.
    destruct (IH (c :: sn) r cs Hw) as (n & Hn).
    exists (S n). cbn [iter]. exists (MState (c :: sn) (w ++ r) cs). split.
    + exists c. simpl. auto.
    + simpl. rewrite <- app_assoc. exact Hn.
Qed.

Lemma star_chr_consumed (g : bool) (p : char -> bool) (s s' : mstate) :
  denotes (Star g (Chr p)) s s' ->
  exists w, rest s = w ++ rest s' /\ Forall (fun c => p c = true) w /\
            caps s' = caps s.
Proof.
  intros (n & H). revert s H. induction n as [|n IH]; intros s H; simpl in H.
  - subst. exists []. auto.
  - destruct H as (s1 & (c & Hp & Hr & _ & Hc) & Hn).
    destruct (IH _ Hn) as (w & Hw & Hf & Hc').
    exists (c :: w). rewrite Hr, Hw. repeat split; [constructor; assumption|].
    congruence.
Qed.

Lemma star_chr_denotes_seen (g : bool) (p : char -> bool) (s s' : mstate) :
  denotes (Star g (Chr p)) s s' ->
  seen s' = seen s \/ exists c t, seen s' = c :: t /\ p c = true.
Proof.
  intros (n & H). revert s H. induction n as [|n IH]; intros s H; simpl in H.
  - subst. left. reflexivity.
  - destruct H as (s1 & (c & Hp & _ & Hs & _) & Hn). right.
    destruct (IH _ Hn) as [E | (c' & t & E & Hc)].
    + exists c, (seen s). rewrite E, Hs. auto.
    + exists c', t. auto.
Qed.

Lemma includes_In (s : jsstring) (c : char) :
  includes s [c] = true -> In c s.
Proof.
  induction s as [|x s IH]; simpl; [discriminate|].
  rewrite andb_true_r. intros H. apply orb_true_iff in H.
  destruct H as [H | H]; [left; apply N.eqb_eq in H; auto | right; auto].
Qed.

(** ** Pieces of a split and trimmed strings *)

Lemma drop_ws_suffix (s : jsstring) :
  exists pre, s = pre ++ drop_ws s /\ Forall (fun c => is_ws c = true) pre.
Proof.
  induction s as [|c s (pre & E & F)]; simpl.
  - exists []. auto.
  - destruct (is_ws c) eqn:Hc.
    + exists (c :: pre). simpl. rewrite <- E. auto.
    + exists []. auto.
Qed.

Lemma drop_ws_head (s : jsstring) :
  match drop_ws s with c :: _ => is_ws c = false | [] => True end.
Proof.
  induction s as [|c s IH]; simpl; [exact I|].
  destruct (is_ws c) eqn:Hc; [exact IH | exact Hc].
Qed.

(** [trim] cuts white space off both ends and nothing else. *)
Lemma trim_infix (s : jsstring) :
  exists a b, s = a ++ trim s ++ b /\
              Forall (fun c => is_ws c = true) a /\
              Forall (fun c => is_ws c = true) b.
Proof.
  destruct (drop_ws_suffix s) as (a & Ea & Fa).
  destruct (drop_ws_suffix (rev (drop_ws s))) as (b & Eb & Fb).
  exists a, (rev b). unfold trim. split; [|split; [assumption|]].
  - rewrite <- rev_app_distr, <- Eb, rev_involutive. exact Ea.
  - apply Forall_rev. assumption.
Qed.

Lemma trim_length (s : jsstring) : length (trim s) <= length s.
Proof.
  destruct (trim_infix s) as (a & b & E & _). rewrite E at 2.
  rewrite !length_app. lia.
Qed.

Lemma trim_In (s : jsstring) (c : char) : In c (trim s) -> In c s.
Proof.
  destruct (trim_infix s) as (a & b & E & _). intros H. rewrite E.
  apply in_or_app. right. apply in_or_app. left. exact H.
Qed.

Lemma rsplit_go_pieces (r : regex) (rs : jsstring) :
  forall skip cur sn,
    Forall (fun p => length p <= length cur + length rs /\
                     forall c, In c p -> In c cur \/ In c rs)
           (rsplit_go r skip cur sn rs).
Proof.
  induction rs as [|c t IH]; intros skip cur sn; cbn [rsplit_go].
  - constructor; [|constructor]. rewrite length_rev. split; [lia|].
    intros x Hx. left. apply in_rev. exact Hx.
  - assert (Hcur : length (rev cur) <= length cur + length (c :: t) /\
                   forall x, In x (rev cur) -> In x cur \/ In x (c :: t)).
    { rewrite length_rev. split; [lia|]. intros x Hx. left. apply in_rev, Hx. }
    assert (Hadv : forall k cur',
               (forall x, In x cur' -> In x cur \/ x = c) ->
               length cur' <= S (length cur) ->
               Forall (fun p => length p <= length cur + length (c :: t) /\
                                forall x, In x p -> In x cur \/ In x (c :: t))
                      (rsplit_go r k cur' (c :: sn) t)).
    { intros k cur' Hin Hlen. eapply Forall_impl; [|apply IH].
      intros p (Hl & Hi). simpl. split; [lia|].
      intros x Hx. destruct (Hi x Hx) as [H | H]; [|auto].
      destruct (Hin x H); subst; auto. }
    destruct skip as [|k].
    + destruct (match_at r sn (c :: t)) as [m|].
      * destruct (length (matched m)) as [|k]; [destruct cur as [|y cur']|].
        -- apply Hadv; simpl; [intuition | lia].
        -- constructor; [exact Hcur|].
           apply Hadv; simpl; [intuition | lia].
        -- constructor; [exact Hcur|].
           apply Hadv; simpl; [intuition | lia].
      * apply Hadv; simpl; [intuition | lia].
    + apply Hadv; [auto | lia].
Qed.

(** Every piece of [s.split(r)] is made of code units of [s] and is no
    longer than [s]. *)
Lemma regex_split_pieces (r : regex) (s : jsstring) :
  Forall (fun p => length p <= length s /\ forall c, In c p -> In c s)
         (regex_split r s).
Proof.
  unfold regex_split. destruct s as [|x s].
  - destruct (match_at r [] []); repeat constructor. intros c [].
  - eapply Forall_impl; [|apply (rsplit_go_pieces r (x :: s) 0 [] [])].
    intros p (Hl & Hi). split; [exact Hl|].
    intros c Hc. destruct (Hi c Hc) as [[] | H]; exact H.
Qed.

(** ** The loops of the fallback, spelled out *)

Section FallbackLoops.

Variable toLowerCase : jsstring -> jsstring.
Variable random : nat -> nat.

Lemma filling_S (len n d : nat) :
  filling random len n (S d) =
  genericQuestion len (random n mod 4) :: filling random (S len) (S n) d.
Proof.
  unfold filling. simpl. rewrite !Nat.add_0_r. f_equal.
  rewrite <- seq_shift, map_map. apply map_ext. intros k.
  rewrite !Nat.add_succ_r. reflexivity.
Qed.

Lemma fillLoop_eq (count fuel : nat) :
  forall questions n,
    count - length questions <= fuel ->
    fillLoop random fuel count questions n =
    (questions ++ filling random (length questions) n (count - length questions),
     n + (count - length questions)).
Proof.
  induction fuel as [|f IH]; intros questions n H; simpl.
  - replace (count - length questions) with 0 by lia.
    unfold ret, filling. simpl. rewrite app_nil_r, Nat.add_0_r. reflexivity.
  - destruct (length questions <? count) eqn:E.
    + apply Nat.ltb_lt in E. unfold bind. cbn [randomBelow].
      rewrite IH by (rewrite length_app; simpl; lia).
      rewrite length_app. simpl length.
      replace (count - length questions)
        with (S (count - (length questions + 1))) by lia.
      rewrite filling_S, <- app_assoc. simpl.
      replace (length questions + 1) with (S (length questions)) by lia.
      f_equal. lia.
    + apply Nat.ltb_ge in E.
      replace (count - length questions) with 0 by lia.
      unfold ret, filling. simpl. rewrite app_nil_r, Nat.add_0_r. reflexivity.
Qed.

Lemma sentenceLoop_length (count : nat) (sentences todo : list jsstring) :
  forall i questionIndex questions n,
    length (fst (sentenceLoop toLowerCase random count sentences i todo
                              questionIndex questions n))
    <= length questions + (count - questionIndex).
Proof.
  induction todo as [|s todo IH]; intros i qi questions n; simpl; [lia|].
  destruct (qi <? count) eqn:E; [|simpl; lia].
  apply Nat.ltb_lt in E.
  destruct (includes (trim s) (lit "?") || (30 <? length (trim s))).
  - unfold bind.
    destruct (sentenceQuestion toLowerCase random sentences i (trim s) n)
      as [q n'].
    eapply Nat.le_trans; [apply IH|]. rewrite length_app. simpl. lia.
  - eapply Nat.le_trans; [apply IH|]. lia.
Qed.

Lemma sentenceLoop_skips (count : nat) (sentences todo : list jsstring) :
  Forall (fun s => includes (trim s) (lit "?") = false /\
                   length (trim s) <= 30) todo ->
  forall i questionIndex questions n,
    sentenceLoop toLowerCase random count sentences i todo
                 questionIndex questions n = (questions, n).
Proof.
  induction 1 as [|s todo (Hq & Hl) _ IH]; intros i qi questions n; simpl;
    [reflexivity|].
  destruct (qi <? count); [|reflexivity].
  rewrite Hq. apply Nat.ltb_ge in Hl. rewrite Hl. simpl. apply IH.
Qed.

Lemma fallback_eq (text : jsstring) (count n : nat) :
  let sentences := regex_split sentenceEndRegex text in
  let derived :=
    fst (sentenceLoop toLowerCase random count sentences 0 sentences 0 [] n) in
  let n1 :=
    snd (sentenceLoop toLowerCase random count sentences 0 sentences 0 [] n) in
  length derived <= count /\
  createFallbackQuestionsFromText toLowerCase random text count n =
  (derived ++ filling random (length derived) n1 (count - length derived),
   n1 + (count - length derived)).
Proof.
  intros sentences derived n1.
  assert (Hlen : length derived <= count).
  { subst derived. eapply Nat.le_trans; [apply sentenceLoop_length|].
    simpl. lia. }
  split; [exact Hlen|].
  unfold createFallbackQuestionsFromText, bind, ret. fold sentences.
  subst derived n1.
  destruct (sentenceLoop toLowerCase random count sentences 0 sentences 0 [] n)
    as [qs n1]. cbn [fst snd] in *.
  rewrite fillLoop_eq by lia. rewrite slice_0, firstn_all2; [reflexivity|].
  rewrite length_app. unfold filling. rewrite length_map, length_seq. lia.
Qed.

End FallbackLoops.

(** ** Patterns of the program, continued *)

Lemma questionRegex_needs_qmark (s s' : mstate) :
  denotes questionRegex s s' -> In qmark (rest s).
Proof.
  unfold questionRegex. cbn [denotes].
  intros (s1 & H1 & s2 & H2 & s3 & (s4 & Hplus & c & Hc & Hrest & _) & _).
  assert (D1 : denotes (Alt Bol (Chr (N.eqb nl))) s s1) by exact H1.
  assert (D2 : denotes (Plus true digit ;; Chr (is_char ".") ;; Star true ws)%re
                       s1 s2) by exact H2.
  apply denotes_text in D1, D2, Hplus.
  destruct D1 as (w1 & -> & _), D2 as (w2 & -> & _), Hplus as (w3 & -> & _).
  unfold is_char in Hc. apply N.eqb_eq in Hc. subst c. rewrite Hrest.
  repeat (apply in_or_app; right). left. reflexivity.
Qed.

Lemma no_qmark_no_question (mcqText : jsstring) :
  ~ In qmark mcqText -> structuredQuestions mcqText = [].
Proof.
  intros Hq. unfold structuredQuestions.
  pose proof (matchAll_whole questionRegex mcqText) as H.
  destruct (matchAll questionRegex mcqText) as [|m ms]; [reflexivity|].
  exfalso. apply Forall_inv in H. destruct H as (Hw & D).
  apply questionRegex_needs_qmark in D. apply Hq. rewrite <- Hw.
  apply in_or_app. right. exact D.
Qed.

Lemma no_bracket_no_json (mcqText : jsstring) :
  ~ In 91%N mcqText -> jsonTier mcqText = Normal None.
Proof.
  intros Hb. unfold jsonTier.
  destruct (regex_match jsonRegex mcqText) as [m|] eqn:E; [|reflexivity].
  exfalso. pose proof (search_from_whole _ _ _ E) as Hw.
  apply search_from_sound in E. destruct E as (_ & D).
  unfold jsonRegex in D. cbn [denotes] in D.
  destruct D as (s1 & (c & Hc & Hrest & _) & _).
  unfold is_char in Hc. apply N.eqb_eq in Hc. subst c.
  apply Hb. simpl in Hw. rewrite <- Hw, Hrest.
  apply in_or_app. right. left. reflexivity.
Qed.

Lemma not_In_existsb (x : char) (l : jsstring) :
  existsb (N.eqb x) l = false -> ~ In x l.
Proof.
  intros H Hin. assert (existsb (N.eqb x) l = true); [|congruence].
  apply existsb_exists. exists x. split; [exact Hin | apply N.eqb_refl].
Qed.

(** X1.  For every text, every count (zero included) and every random
    source, the fallback generator returns exactly [count] records, each with
    four options and a [correctAnswer] from 0 to 3. *)
Theorem fallback_exactly_count (toLowerCase : jsstring -> jsstring)
  (random : nat -> nat) (text : jsstring) (count n : nat) :
  let result :=
    fst (createFallbackQuestionsFromText toLowerCase random text count n) in
  length result = count /\ Forall shaped result.
Proof. split; [apply fallback_length | apply fallback_shaped]. Qed.

(** X2.  The result of the fallback generator is the records made from
    sentences, at most [count] of them, followed by generic records up to
    [count]; the generic record at position [p] (from 0) is
    [Question p+1 related to the subject?] with the four literal answers,
    and each costs one call of [Math.random]. *)
Theorem fallback_fill_numbering (toLowerCase : jsstring -> jsstring)
  (random : nat -> nat) (text : jsstring) (count n : nat) :
  exists derived n1,
    length derived <= count /\
    Forall (fun q => exists i sentence n',
                fst (sentenceQuestion toLowerCase random
                       (regex_split sentenceEndRegex text) i sentence n') = q)
           derived /\
    createFallbackQuestionsFromText toLowerCase random text count n =
    (derived ++
     map (fun k => genericQuestion (length derived + k)
                                   (random (n1 + k) mod 4))
         (seq 0 (count - length derived)),
     n1 + (count - length derived)).
Proof.
  destruct (fallback_eq toLowerCase random text count n) as (Hl & E).
  eexists _, _. split; [exact Hl|]. split; [|exact E].
  apply sentenceLoop_Forall; [|constructor].
  intros i sentence n'. eexists _, _, _. reflexivity.
Qed.

Lemma fallback_generic_only (toLowerCase : jsstring -> jsstring)
  (random : nat -> nat) (text : jsstring) (count n : nat) :
  length text <= 30 ->
  ~ In qmark text ->
  createFallbackQuestionsFromText toLowerCase random text count n =
  (map (fun k => genericQuestion k (random (n + k) mod 4)) (seq 0 count),
   n + count).
Proof.
  intros Hlen Hq.
  destruct (fallback_eq toLowerCase random text count n) as (_ & E).
  rewrite E. clear E.
  rewrite sentenceLoop_skips.
  - cbn [fst snd length]. rewrite Nat.sub_0_r. reflexivity.
  - eapply Forall_impl; [|apply regex_split_pieces].
    intros s (Hl & Hi). split.
    + destruct (includes (trim s) (lit "?")) eqn:E; [|reflexivity].
      exfalso. apply Hq, Hi, trim_In.
      apply (includes_In (trim s) qmark). exact E.
    + pose proof (trim_length s). lia.
Qed.

(** X3.  On a text of at most 30 code units without a question mark (the
    empty text included) no sentence qualifies, and the fallback generator
    returns the [count] generic records [Question 1 ...] to
    [Question count ...], drawing exactly [count] random numbers. *)
Theorem fallback_on_short_text (toLowerCase : jsstring -> jsstring)
  (random : nat -> nat) (text : jsstring) (count n : nat) :
  length text <= 30 ->
  ~ In qmark text ->
  createFallbackQuestionsFromText toLowerCase random text count n =
  (map (fun k => genericQuestion k (random (n + k) mod 4)) (seq 0 count),
   n + count).
Proof. apply fallback_generic_only. Qed.

Lemma fallback_on_short_text_witness :
  createFallbackQuestionsFromText asciiLowerCase counting
    (lit "I cannot help with that.") 3 5 =
  (map (fun k => genericQuestion k (counting (5 + k) mod 4)) (seq 0 3), 5 + 3).
Proof.
  apply fallback_on_short_text.
  - vm_compute. repeat constructor.
  - apply not_In_existsb. vm_compute. reflexivity.
Defined.

(** X4.  If the text has no question mark, the structured-text tier finds
    nothing and [parseMCQQuestions] returns exactly ten records. *)
Theorem no_qmark_exactly_ten (toLowerCase : jsstring -> jsstring)
  (random : nat -> nat) (mcqText : jsstring) (n : nat) :
  ~ In qmark mcqText ->
  structuredQuestions mcqText = [] /\
  length (fst (parseMCQQuestions toLowerCase random mcqText n)) = 10.
Proof.
  intros Hq. pose proof (no_qmark_no_question _ Hq) as Hs.
  split; [exact Hs|].
  destruct (parse_cases toLowerCase random mcqText n)
    as [(parsed & Hl & _ & ->) | [(_ & H5 & _) | (_ & ->)]].
  - cbn [fst]. rewrite length_firstn. lia.
  - rewrite Hs in H5. simpl in H5. lia.
  - apply fallbackTier_length.
Qed.

Lemma no_qmark_exactly_ten_witness :
  structuredQuestions (lit "1. Name the capital of France. A. Paris B. Rome") = []
  /\ length (fst (parseMCQQuestions asciiLowerCase zeros
                    (lit "1. Name the capital of France. A. Paris B. Rome") 0))
     = 10.
Proof.
  apply no_qmark_exactly_ten.
  apply not_In_existsb. vm_compute. reflexivity.
Defined.

(** X5.  Degenerate input: on a text of at most 30 code units with neither
    an opening bracket nor a question mark (the empty text, a short refusal)
    [parseMCQQuestions] returns the ten generic records [Question 1 ...] to
    [Question 10 ...]; only their [correctAnswer] depends on the random
    source. *)
Theorem parse_degenerate_input (toLowerCase : jsstring -> jsstring)
  (random : nat -> nat) (mcqText : jsstring) (n : nat) :
  length mcqText <= 30 ->
  ~ In 91%N mcqText ->
  ~ In qmark mcqText ->
  parseMCQQuestions toLowerCase random mcqText n =
  (map to_json
       (map (fun k => genericQuestion k (random (n + k) mod 4)) (seq 0 10)),
   n + 10).
Proof.
  intros Hlen Hb Hq.
  rewrite (parse_when_json_falls_through _ _ _ n (no_bracket_no_json _ Hb)).
  rewrite structuredTier_rejects
    by (rewrite (no_qmark_no_question _ Hq); simpl; lia).
  unfold fallbackTier, bind, ret.
  rewrite (fallback_generic_only toLowerCase random mcqText 10 n Hlen Hq).
  reflexivity.
Qed.

Lemma parse_degenerate_input_witness :
  parseMCQQuestions asciiLowerCase zeros [] 0 =
  (map to_json
       (map (fun k => genericQuestion k (zeros (0 + k) mod 4)) (seq 0 10)),
   0 + 10).
Proof.
  apply parse_degenerate_input.
  - vm_compute. repeat constructor.
  - apply not_In_existsb. vm_compute. reflexivity.
  - apply not_In_existsb. vm_compute. reflexivity.
Defined.

(** X6.  Whenever the options zone contains the word [correct], in any
    letter case, followed after optional white space by the letter [a] or
    [A] (as in [Correct answer: B], [the correct alternative] or
    [incorrect at]), the correct index is 0, whatever else the zone says. *)
Theorem correct_then_a_gives_index_0 (pre word sp post : jsstring) (a : char) :
  map ascii_lower word = lit "correct" ->
  Forall (fun c => is_ws c = true) sp ->
  ascii_lower a = 97%N ->
  findCorrectAnswer (pre ++ word ++ sp ++ a :: post) = 0%Z.
Proof.
  intros Hword Hsp Ha.
  assert (Hm : regex_match (correctRegex "A") (pre ++ word ++ sp ++ a :: post)
               <> None).
  { apply (@regex_match_complete (correctRegex "A") pre
             (word ++ sp ++ a :: post)
             (MState (a :: rev sp ++ rev word ++ rev pre) post []));
      [reflexivity|].
    unfold correctRegex, Opt. cbn [denotes].
    exists (MState (rev word ++ rev pre) (sp ++ a :: post) []).
    split; [apply LitI_denotes; rewrite Hword; reflexivity|].
    eexists; split; [right; reflexivity|].
    eexists; split; [right; reflexivity|].
    eexists; split; [right; reflexivity|].
    exists (MState (rev sp ++ rev word ++ rev pre) (a :: post) []).
    split; [exact (@star_chr_denotes true is_ws sp _ _ _ Hsp)|].
    apply (@LitI_denotes (lit "A") [a]). simpl. rewrite Ha. reflexivity. }
  unfold findCorrectAnswer, marked.
  destruct (regex_match (correctRegex "A") _); [|congruence].
  rewrite !orb_true_r. reflexivity.
Qed.

Lemma correct_then_a_gives_index_0_witness :
  findCorrectAnswer
    (lit "D. d - " ++ lit "Correct" ++ lit " " ++ 97%N :: lit "nswer: B") = 0%Z.
Proof.
  apply correct_then_a_gives_index_0.
  - vm_compute. reflexivity.
  - vm_compute. repeat constructor.
  - vm_compute. reflexivity.
Defined.

(** ** The records of the structured-text tier, in detail *)

Lemma drop_ws_app_last (w : jsstring) (c : char) :
  is_ws c = false -> drop_ws (w ++ [c]) = drop_ws w ++ [c].
Proof.
  intros Hc. induction w as [|x w IH]; simpl.
  - rewrite Hc. reflexivity.
  - destruct (is_ws x); [exact IH | reflexivity].
Qed.

Lemma trim_app_qmark (w : jsstring) :
  trim (w ++ [qmark]) = drop_ws w ++ [qmark].
Proof.
  unfold trim. rewrite drop_ws_app_last by reflexivity.
  rewrite rev_app_distr. simpl. rewrite rev_involutive. reflexivity.
Qed.

(** The loop body, with the zone and the options it used. *)
Lemma questionStep_detail (mcqText : jsstring) (m : mstate * mstate)
  (questions : list Question) :
  questionStep mcqText m questions = questions \/
  exists optionsText,
    questionStep mcqText m questions =
    questions ++ [mkQuestion (trim (group 1 m))
                             (slice (parseOptions optionsText) 0 4)
                             (findCorrectAnswer optionsText)].
Proof.
  unfold questionStep.
  destruct (optionsZone mcqText (trim (group 1 m))) as [[|c z]|]; auto.
  destruct (4 <=? length (parseOptions (c :: z))); auto.
  right. exists (c :: z). reflexivity.
Qed.

Lemma questionLoop_detail (P : Question -> Prop) (mcqText : jsstring)
  (ms : list (mstate * mstate)) :
  Forall (fun m => forall optionsText,
              P (mkQuestion (trim (group 1 m))
                            (slice (parseOptions optionsText) 0 4)
                            (findCorrectAnswer optionsText))) ms ->
  forall questions,
    Forall P questions -> Forall P (questionLoop mcqText ms questions).
Proof.
  induction 1 as [|m ms Hm _ IH]; intros questions Hq; simpl; [assumption|].
  destruct (length questions <? 10); [|assumption].
  apply IH.
  destruct (questionStep_detail mcqText m questions) as [-> | (z & ->)];
    [assumption|].
  apply Forall_app; split; [assumption|]. constructor; [apply Hm | constructor].
Qed.

Lemma questionRegex_capture (text : jsstring) (m : mstate * mstate) :
  rev (seen (fst m)) ++ rest (fst m) = text ->
  denotes questionRegex (fst m) (snd m) ->
  exists w a b,
    group 1 m = w ++ [qmark] /\ ~ In qmark w /\ text = a ++ group 1 m ++ b.
Proof.
  intros Hw. unfold questionRegex, Plus. cbn [denotes].
  intros (s1 & H1 & s2 & H2 & s3 &
          (s4 & (s5 & (c0 & Hc0 & Hr0 & _) & Hstar) & c & Hc & Hrest & _) & E).
  assert (D1 : denotes (Alt Bol (Chr (N.eqb nl))) (fst m) s1) by exact H1.
  assert (D2 : denotes ((digit ;; Star true digit) ;; Chr (is_char ".") ;;
                        Star true ws)%re s1 s2) by exact H2.
  apply denotes_text in D1, D2.
  destruct D1 as (w1 & R1 & _), D2 as (w2 & R2 & _).
  destruct (@star_chr_consumed true (fun c => negb (is_char "?" c)) s5 s4 Hstar)
    as (w' & Rw & Fw & _).
  unfold is_char in Hc. apply N.eqb_eq in Hc. subst c.
  assert (Hg : group 1 m = (c0 :: w') ++ [qmark]).
  { unfold group. rewrite E. simpl. apply consumed_app.
    rewrite Hr0, Rw, Hrest. simpl. rewrite <- app_assoc. reflexivity. }
  exists (c0 :: w'), (rev (seen (fst m)) ++ w1 ++ w2), (rest s3).
  split; [exact Hg|]. split.
  - intros [H | H].
    + subst c0. vm_compute in Hc0. discriminate.
    + rewrite Forall_forall in Fw. specialize (Fw _ H).
      vm_compute in Fw. discriminate.
  - rewrite Hg, <- Hw, R1, R2, Hr0, Rw, Hrest. simpl.
    rewrite <- !app_assoc. reflexivity.
Qed.

Lemma Forall_trim (P : char -> Prop) (s : jsstring) :
  Forall P s -> Forall P (trim s).
Proof.
  intros H. apply Forall_forall. intros c Hc.
  rewrite Forall_forall in H. apply H, trim_In, Hc.
Qed.

Lemma optionRegex_capture (m : mstate * mstate) :
  denotes optionRegex (fst m) (snd m) ->
  group 1 m <> [] /\
  Forall (fun c => is_line_terminator c = false) (group 1 m).
Proof.
  unfold optionRegex, Plus, letterAD. cbn [denotes].
  intros (s1 & _ & s2 & _ & s3 &
          (s4 & (s5 & (c0 & Hc0 & Hr0 & _) & Hstar) & E) & s6 & Hlook & E').
  destruct (@star_chr_consumed false
              (fun c => negb (is_line_terminator c)) s5 s4 Hstar)
    as (w' & Rw & Fw & _).
  assert (Hcaps : caps s6 = caps s3).
  { destruct Hlook as [(t1 & (? & _ & _ & _ & C1) & t2 & (? & _ & _ & _ & C2)
                           & (? & _ & _ & _ & C3)) | (_ & ->)];
      [congruence | reflexivity]. }
  assert (Hg : group 1 m = c0 :: w').
  { unfold group. rewrite E'. simpl. rewrite Hcaps, E. simpl.
    apply consumed_app. rewrite Hr0, Rw. reflexivity. }
  rewrite Hg. split; [discriminate|].
  constructor.
  - apply negb_true_iff. exact Hc0.
  - eapply Forall_impl; [|exact Fw]. intros c. apply negb_true_iff.
Qed.

Lemma parseOptions_single_line (optionsText : jsstring) :
  Forall (Forall (fun c => is_line_terminator c = false))
         (parseOptions optionsText).
Proof.
  unfold parseOptions. apply Forall_map.
  eapply Forall_impl; [|apply (matchAll_whole optionRegex optionsText)].
  intros m (_ & D). apply Forall_trim, optionRegex_capture, D.
Qed.

(** X7.  Every question text the structured-text tier accepts is a piece of
    the input, starts with a code unit that is not white space, and contains
    exactly one question mark, its last code unit. *)
Theorem structured_question_text (mcqText : jsstring) :
  Forall (fun q =>
            exists w a b,
              question q = w ++ [qmark] /\ ~ In qmark w /\
              match question q with
              | c :: _ => is_ws c = false
              | [] => False
              end /\
              mcqText = a ++ question q ++ b)
         (structuredQuestions mcqText).
Proof.
  apply questionLoop_detail; [|constructor].
  eapply Forall_impl; [|apply (matchAll_whole questionRegex mcqText)].
  intros m (Hw & D) z. cbn [question].
  destruct (@questionRegex_capture mcqText m Hw D) as (w & a & b & Hg & Hq & Ht).
  rewrite Hg, trim_app_qmark.
  destruct (drop_ws_suffix w) as (pre & Ew & _).
  exists (drop_ws w), (a ++ pre), b.
  split; [reflexivity|]. split; [|split].
  - intros H. apply Hq. rewrite Ew. apply in_or_app. right. exact H.
  - pose proof (drop_ws_head w) as Hh.
    destruct (drop_ws w); [reflexivity | exact Hh].
  - rewrite Ht, Hg. rewrite Ew at 1. rewrite <- !app_assoc. reflexivity.
Qed.

(** X8.  Every record the structured-text tier accepts has exactly four
    options, none of which contains a line break (LF, CR, U+2028 or
    U+2029). *)
Theorem structured_options_single_line (mcqText : jsstring) :
  Forall (fun q =>
            length (options q) = 4 /\
            Forall (Forall (fun c => is_line_terminator c = false))
                   (options q))
         (structuredQuestions mcqText).
Proof.
  pose proof (structuredQuestions_shaped mcqText) as Hs.
  assert (Hl : Forall (fun q => Forall (Forall (fun c =>
                         is_line_terminator c = false)) (options q))
                      (structuredQuestions mcqText)).
  { apply questionLoop_detail; [|constructor].
    apply Forall_forall. intros m _ z. cbn [options].
    rewrite slice_0. apply Forall_take, parseOptions_single_line. }
  rewrite Forall_forall in *. intros q Hq.
  split; [apply (Hs q Hq) | apply (Hl q Hq)].
Qed.

(** ** The records of the fallback, in detail *)

Lemma existsb_str_eqb_false (x : jsstring) (l : list jsstring) :
  existsb (str_eqb x) l = false -> ~ In x l.
Proof.
  intros H Hin. assert (existsb (str_eqb x) l = true); [|congruence].
  apply existsb_exists. exists x. split; [exact Hin | apply str_eqb_refl].
Qed.

Lemma padOptions_eq (fuel : nat) :
  forall options,
    length options <= 3 -> 3 - length options <= fuel ->
    padOptions fuel options = options ++ placeholders (length options).
Proof.
  unfold placeholders.
  induction fuel as [|f IH]; intros options H3 Hf; cbn [padOptions].
  - replace (3 - length options) with 0 by lia.
    cbn [seq map]. rewrite app_nil_r. reflexivity.
  - destruct (length options <? 3) eqn:E.
    + apply Nat.ltb_lt in E.
      rewrite IH by (rewrite length_app; cbn [length]; lia).
      rewrite length_app. cbn [length]. rewrite <- app_assoc. f_equal.
      replace (3 - length options) with (S (3 - (length options + 1))) by lia.
      cbn [seq map app].
      replace (S (length options)) with (length options + 1) by lia.
      reflexivity.
    + apply Nat.ltb_ge in E. replace (3 - length options) with 0 by lia.
      cbn [seq map]. rewrite app_nil_r. reflexivity.
Qed.

Section FallbackDetail.

Variable toLowerCase : jsstring -> jsstring.
Variable random : nat -> nat.

Lemma scanWords_some (avoid options words : list jsstring) (todo : list jsstring) :
  forall k option,
    scanWords toLowerCase avoid options words k todo = Some option ->
    5 < length option /\ ~ In option options.
Proof.
  induction todo as [|w todo IH]; intros k option H; simpl in H;
    [discriminate|].
  destruct ((4 <? length w)
            && negb (existsb (str_eqb (toLowerCase w)) avoid)); [|eauto].
  match type of H with
  | (if ?b then _ else _) = _ => destruct b eqn:E
  end; [|eauto].
  injection H as <-. apply andb_true_iff in E. destruct E as [E1 E2].
  apply Nat.ltb_lt in E1. apply negb_true_iff in E2.
  split; [exact E1 | apply existsb_str_eqb_false; exact E2].
Qed.

Lemma harvest_distinct (avoid : list jsstring) (i : nat) (todo : list jsstring) :
  forall j (options : list jsstring),
    NoDup options -> Forall (fun o => 5 < length o) options ->
    NoDup (harvest toLowerCase avoid i j todo options) /\
    Forall (fun o => 5 < length o) (harvest toLowerCase avoid i j todo options).
Proof.
  induction todo as [|sj todo IH]; intros j options Hn Hf; simpl; [auto|].
  destruct (length options <? 3); [|auto].
  apply IH.
  - destruct (negb (i =? j) && (15 <? length sj)); [|assumption].
    destruct (scanWords _ _ _ _ _ _) as [o|] eqn:E; [|assumption].
    apply scanWords_some in E. destruct E as (_ & Hnot).
    apply NoDup_app; [assumption | repeat constructor; intros [] |].
    intros x Hx [<- | []]. exact (Hnot Hx).
  - destruct (negb (i =? j) && (15 <? length sj)); [|assumption].
    destruct (scanWords _ _ _ _ _ _) as [o|] eqn:E; [|assumption].
    apply scanWords_some in E. destruct E as (Hlen & _).
    apply Forall_app; split; [assumption | repeat constructor; exact Hlen].
Qed.

End FallbackDetail.

Lemma longWordRegex_matched (text : jsstring) (m : mstate * mstate) :
  rev (seen (fst m)) ++ rest (fst m) = text ->
  denotes longWordRegex (fst m) (snd m) ->
  4 <= length (matched m) /\
  Forall (fun c => is_word c = true) (matched m) /\
  at_word (seen (fst m)) = false /\ at_word (rest (snd m)) = false /\
  text = rev (seen (fst m)) ++ matched m ++ rest (snd m).
Proof.
  intros Hw. unfold longWordRegex, word. cbn [denotes].
  intros (s0 & (Hb & ->) & s1 & (c1 & P1 & R1 & S1 & _) &
          s2 & (c2 & P2 & R2 & S2 & _) & s3 & (c3 & P3 & R3 & S3 & _) &
          s4 & (c4 & P4 & R4 & S4 & _) & s5 & Hstar & (He & E)).
  destruct (@star_chr_consumed true is_word s4 s5 Hstar) as (w & Rw & Fw & _).
  assert (Hrest : rest (fst m) = (c1 :: c2 :: c3 :: c4 :: w) ++ rest (snd m)).
  { rewrite R1, R2, R3, R4, Rw, E. reflexivity. }
  assert (Hm : matched m = c1 :: c2 :: c3 :: c4 :: w)
    by (apply consumed_app; exact Hrest).
  rewrite Hm. split; [simpl; lia|]. split; [repeat constructor; assumption|].
  assert (Hstart : at_word (rest (fst m)) = true) by (rewrite R1; exact P1).
  rewrite Hstart in Hb.
  split; [destruct (at_word (seen (fst m))); [discriminate | reflexivity]|].
  assert (Hend : at_word (seen s5) = true).
  { destruct (@star_chr_denotes_seen true is_word s4 s5 Hstar) as [-> | (c & t & -> & Pc)];
      [rewrite S4; exact P4 | exact Pc]. }
  rewrite Hend in He. split.
  - rewrite E. destruct (at_word (rest s5)); [discriminate | reflexivity].
  - rewrite <- Hw, Hrest. reflexivity.
Qed.


(** X10.  The phrase the fallback presents as correct is either the literal
    [Correct option] or a whole word of the sentence: at least four word
    characters (letters, digits, underscore) with no word character right
    before or after it in the sentence. *)
Theorem chosen_phrase_is_a_word (random : nat -> nat) (sentence : jsstring)
  (n : nat) :
  let chosen := fst (chooseCorrect random sentence n) in
  chosen = lit "Correct option" \/
  exists before after,
    sentence = before ++ chosen ++ after /\
    4 <= length chosen /\
    Forall (fun c => is_word c = true) chosen /\
    at_word (rev before) = false /\ at_word after = false.
Proof.
  intros chosen. subst chosen. unfold chooseCorrect.
  pose proof (matchAll_whole longWordRegex sentence) as Hall.
  destruct (matchAll longWordRegex sentence) as [|m ms] eqn:E;
    [left; reflexivity|].
  right. cbn [map]. unfold bind, ret. cbn [randomBelow fst].
  set (phrases := matched m :: map matched ms).
  assert (Hin : In (nth (random n mod length phrases) phrases []) phrases).
  { apply nth_In. apply Nat.mod_upper_bound. subst phrases. simpl. lia. }
  change (matched m :: map matched ms) with (map matched (m :: ms)) in phrases.
  subst phrases. apply in_map_iff in Hin. destruct Hin as (m' & <- & Hm').
  rewrite Forall_forall in Hall. destruct (Hall m' Hm') as (Hw & D).
  destruct (@longWordRegex_matched sentence m' Hw D)
    as (H4 & Hword & Hb & Ha & Htext).
  exists (rev (seen (fst m'))), (rest (snd m')).
  rewrite rev_involutive. auto.
Qed.

(** X11.  The three distractors of a fallback record are the phrases
    harvested from other sentences, at most three, pairwise distinct and
    each longer than five code units, followed by the placeholders
    [Option k], where [k] is the position (from 1) they fill. *)
Theorem distractors_structure (toLowerCase : jsstring -> jsstring)
  (sentences : list jsstring) (i : nat) (sentence : jsstring) :
  exists harvested,
    length harvested <= 3 /\
    NoDup harvested /\
    Forall (fun o => 5 < length o) harvested /\
    distractors toLowerCase sentences i sentence =
    harvested ++
    map (fun k => lit "Option " ++ decimal (k + 1))
        (seq (length harvested) (3 - length harvested)).
Proof.
  unfold distractors.
  set (avoid := map toLowerCase _).
  exists (harvest toLowerCase avoid i 0 sentences []).
  assert (Hl : length (harvest toLowerCase avoid i 0 sentences []) <= 3)
    by (apply harvest_length; simpl; lia).
  destruct (@harvest_distinct toLowerCase avoid i sentences 0 []
              (NoDup_nil _) (Forall_nil _)) as (Hn & Hf).
  repeat split; try assumption.
  apply padOptions_eq; lia.
Qed.

(** X12.  The route [/generate-mcqs] sends exactly what [parseMCQQuestions]
    returned: its own [slice(0, 10)] never drops a record, and the array sent
    has between five and ten elements. *)
Theorem generateMcqs_sends_parse_result (toLowerCase : jsstring -> jsstring)
  (random : nat -> nat) (mcqText : jsstring) (n : nat) :
  let parsed := parseMCQQuestions toLowerCase random mcqText n in
  generateMcqsResponse toLowerCase random mcqText n =
  (JObj [(lit "mcqQuestions", JArr (fst parsed))], snd parsed) /\
  5 <= length (fst parsed) <= 10.
Proof.
  intros parsed.
  assert (Hlen : 5 <= length (fst parsed) <= 10).
  { subst parsed.
    destruct (parse_cases toLowerCase random mcqText n)
      as [(p & Hl & _ & ->) | [(_ & H5 & ->) | (_ & ->)]]; cbn [fst].
    - rewrite length_firstn. lia.
    - rewrite length_map. pose proof (structuredQuestions_length mcqText). lia.
    - rewrite fallbackTier_length. lia. }
  split; [|exact Hlen].
  unfold generateMcqsResponse, bind, ret. fold parsed.
  destruct parsed as [qs n']. cbn [fst snd] in *.
  rewrite slice_0, firstn_all2 by lia. reflexivity.
Qed.

(** ** The options zone *)

Lemma match_at_consumes (r : regex) (sn rs : jsstring) (m : mstate * mstate) :
  consuming r = true ->
  match_at r sn rs = Some m -> 0 < length (matched m).
Proof.
  intros Hc H. pose proof (@match_at_sound _ _ _ _ H) as (_ & D).
  pose proof (@consuming_shorter _ Hc _ _ D) as Hlt.
  apply denotes_text in D. destruct D as (w & Hw & _).
  unfold matched. rewrite (@consumed_app _ _ _ Hw).
  rewrite Hw, length_app in Hlt. lia.
Qed.

(** The first piece of a split ends where the separator first matches:
    before that it matches nowhere. *)
Lemma rsplit_go_first (r : regex) (rs : jsstring) :
  consuming r = true ->
  forall cur sn,
  exists u v,
    rs = u ++ v /\
    nth_error (rsplit_go r 0 cur sn rs) 0 = Some (rev cur ++ u) /\
    forall u1 x u2, u = u1 ++ x :: u2 ->
                    match_at r (rev u1 ++ sn) (x :: u2 ++ v) = None.
Proof.
  intros Hc. induction rs as [|c t IH]; intros cur sn; cbn [rsplit_go].
  - exists [], [].
    split; [reflexivity|]. split; [rewrite app_nil_r; reflexivity|].
    intros [|? ?] ? ? H; discriminate.
  - destruct (match_at r sn (c :: t)) as [m|] eqn:E.
    + pose proof (@match_at_consumes _ _ _ _ Hc E) as Hpos.
      destruct (length (matched m)) as [|k]; [lia|].
      exists [], (c :: t).
      split; [reflexivity|]. split; [rewrite app_nil_r; reflexivity|].
      intros [|? ?] ? ? H; discriminate.
    + destruct (IH (c :: cur) (c :: sn)) as (u & v & -> & Hn & Hnone).
      exists (c :: u), v. split; [reflexivity|]. split.
      * rewrite Hn. simpl. rewrite <- app_assoc. reflexivity.
      * intros [|y u1] x u2 H; simpl in H; injection H as -> ->.
        -- exact E.
        -- simpl. rewrite <- app_assoc. apply Hnone. reflexivity.
Qed.

Lemma regex_split_first (r : regex) (s zone : jsstring) :
  consuming r = true ->
  nth_error (regex_split r s) 0 = Some zone ->
  exists v,
    s = zone ++ v /\
    forall u1 x u2, zone = u1 ++ x :: u2 ->
                    match_at r (rev u1) (x :: u2 ++ v) = None.
Proof.
  intros Hc. unfold regex_split. destruct s as [|c t].
  - destruct (match_at r [] []); [discriminate|]. intros H. injection H as <-.
    exists []. split; [reflexivity|]. intros [|? ?] ? ? H; discriminate.
  - destruct (@rsplit_go_first r (c :: t) Hc [] []) as (u & v & E & Hn & Hnone).
    rewrite Hn. intros H. injection H as <-. simpl. exists v.
    split; [exact E|]. intros u1 x u2 H.
    specialize (Hnone u1 x u2 H). rewrite app_nil_r in Hnone. exact Hnone.
Qed.

(** An options zone holds no digit directly followed by a full stop, and no
    two line feeds with only white space between them. *)
Lemma optionsZone_has_no_separator (mcqText questionText zone : jsstring) :
  optionsZone mcqText questionText = Some zone ->
  (forall a d b, zone = a ++ d :: 46%N :: b -> is_digit d = false) /\
  (forall a sp b, zone = a ++ nl :: sp ++ nl :: b ->
                  ~ Forall (fun c => is_ws c = true) sp).
Proof.
  unfold optionsZone.
  destruct (nth_error (split_str mcqText questionText) 1) as [after|];
    [|discriminate].
  intros H. apply regex_split_first in H; [|reflexivity].
  destruct H as (v & _ & Hnone). split.
  - intros a d b -> . destruct (is_digit d) eqn:Hd; [|reflexivity]. exfalso.
    specialize (Hnone a d (46%N :: b) eq_refl).
    unfold match_at in Hnone.
    assert (Hm : rmatch zoneEndRegex Some
                   (MState (rev a) (d :: (46%N :: b) ++ v) []) <> None).
    { apply (@rmatch_complete zoneEndRegex eq_refl Some _
               (MState (46%N :: d :: rev a) (b ++ v) []));
        [|discriminate].
      unfold zoneEndRegex, Plus, digit, ws. cbn [denotes]. left.
      exists (MState (d :: rev a) (46%N :: b ++ v) []). split.
      - exists (MState (d :: rev a) (46%N :: b ++ v) []). split.
        + exists d. simpl. auto.
        + exists 0. reflexivity.
      - exists (MState (46%N :: d :: rev a) (b ++ v) []). split.
        + exists 46%N. simpl. auto.
        + exists 0. reflexivity. }
    destruct (rmatch zoneEndRegex Some _); [discriminate | congruence].
  - intros a sp b -> Hsp.
    specialize (Hnone a nl (sp ++ nl :: b) eq_refl).
    unfold match_at in Hnone.
    assert (Hm : rmatch zoneEndRegex Some
                   (MState (rev a) (nl :: (sp ++ nl :: b) ++ v) []) <> None).
    { apply (@rmatch_complete zoneEndRegex eq_refl Some _
               (MState (nl :: rev sp ++ nl :: rev a) (b ++ v) []));
        [|discriminate].
      unfold zoneEndRegex, ws. cbn [denotes]. right.
      exists (MState (nl :: rev a) (sp ++ nl :: b ++ v) []). split.
      - exists nl. simpl. rewrite <- app_assoc. auto.
      - exists (MState (rev sp ++ nl :: rev a) (nl :: b ++ v) []). split.
        + exact (@star_chr_denotes true is_ws sp (nl :: rev a)
                   (nl :: b ++ v) [] Hsp).
        + exists nl. simpl. auto. }
    destruct (rmatch zoneEndRegex Some _); [discriminate | congruence].
Qed.

Lemma questionStep_zone (mcqText : jsstring) (m : mstate * mstate)
  (questions : list Question) :
  questionStep mcqText m questions = questions \/
  exists optionsText,
    optionsZone mcqText (trim (group 1 m)) = Some optionsText /\
    questionStep mcqText m questions =
    questions ++ [mkQuestion (trim (group 1 m))
                             (slice (parseOptions optionsText) 0 4)
                             (findCorrectAnswer optionsText)].
Proof.
  unfold questionStep.
  destruct (optionsZone mcqText (trim (group 1 m))) as [[|c z]|]; auto.
  destruct (4 <=? length (parseOptions (c :: z))); auto.
  right. exists (c :: z). auto.
Qed.

Lemma questionLoop_zone (P : Question -> Prop) (mcqText : jsstring)
  (ms : list (mstate * mstate)) :
  (forall questionText optionsText,
      optionsZone mcqText questionText = Some optionsText ->
      P (mkQuestion questionText (slice (parseOptions optionsText) 0 4)
                    (findCorrectAnswer optionsText))) ->
  forall questions,
    Forall P questions -> Forall P (questionLoop mcqText ms questions).
Proof.
  intros HP. induction ms as [|m ms IH]; intros questions Hq; simpl;
    [assumption|].
  destruct (length questions <? 10); [|assumption].
  apply IH.
  destruct (questionStep_zone mcqText m questions) as [-> | (z & Hz & ->)];
    [assumption|].
  apply Forall_app; split; [assumption|].
  constructor; [apply HP; exact Hz | constructor].
Qed.

Lemma optionRegex_capture_in (zone : jsstring) (m : mstate * mstate) :
  rev (seen (fst m)) ++ rest (fst m) = zone ->
  denotes optionRegex (fst m) (snd m) ->
  exists a b, zone = a ++ group 1 m ++ b.
Proof.
  intros Hw. unfold optionRegex, letterAD. cbn [denotes].
  intros (s1 & H1 & s2 & H2 & s3 & (s4 & Hplus & E) & s6 & Hlook & E').
  assert (D1 : denotes (Alt Bol (Chr (N.eqb nl))) (fst m) s1) by exact H1.
  assert (D2 : denotes (Chr (in_range 65 68) ;; Chr (is_char ".") ;;
                        Star true ws)%re s1 s2) by exact H2.
  apply denotes_text in D1, D2, Hplus.
  destruct D1 as (w1 & R1 & _), D2 as (w2 & R2 & _), Hplus as (g & Rg & _).
  assert (Hcaps : caps s6 = caps s3).
  { destruct Hlook as [(t1 & (? & _ & _ & _ & C1) & t2 & (? & _ & _ & _ & C2)
                           & (? & _ & _ & _ & C3)) | (_ & ->)];
      [congruence | reflexivity]. }
  assert (Hg : group 1 m = g).
  { unfold group. rewrite E'. simpl. rewrite Hcaps, E. simpl.
    apply consumed_app. exact Rg. }
  exists (rev (seen (fst m)) ++ w1 ++ w2), (rest s4).
  rewrite Hg, <- Hw, R1, R2, Rg, <- !app_assoc. reflexivity.
Qed.

Lemma parseOptions_in_zone (optionsText : jsstring) :
  Forall (fun o => exists a b, optionsText = a ++ o ++ b)
         (parseOptions optionsText).
Proof.
  unfold parseOptions. apply Forall_map.
  eapply Forall_impl; [|apply (matchAll_whole optionRegex optionsText)].
  intros m (Hw & D).
  destruct (@optionRegex_capture_in optionsText m Hw D) as (a & b & E).
  destruct (trim_infix (group 1 m)) as (a' & b' & E' & _).
  exists (a ++ a'), (b' ++ b). rewrite E. rewrite E' at 1.
  rewrite <- !app_assoc. reflexivity.
Qed.

(** X13.  The zone searched for options ends at the first digit that is
    directly followed by a full stop (as it ends at a blank line), so no
    option of an accepted record contains a digit directly followed by a
    full stop: an option such as [3.14] is never captured whole. *)
Theorem structured_options_have_no_numbering (mcqText : jsstring) :
  Forall (fun q =>
            Forall (fun o => forall x d y,
                        o = x ++ d :: 46%N :: y -> is_digit d = false)
                   (options q))
         (structuredQuestions mcqText).
Proof.
  apply questionLoop_zone; [|constructor].
  intros questionText zone Hz. cbn [options]. rewrite slice_0.
  apply Forall_take.
  destruct (optionsZone_has_no_separator _ _ Hz) as (Hdigit & _).
  eapply Forall_impl; [|apply parseOptions_in_zone].
  intros o (a & b & E) x d y Ho.
  apply (Hdigit (a ++ x) d (y ++ b)).
  rewrite E, Ho, <- !app_assoc. reflexivity.
Qed.

(** ** An array of questions in prose *)

(** Greedy white space takes the whole run when what follows cannot start
    with white space. *)
Lemma star_ws_run (K : cont) (cs : list (nat * jsstring)) (tl : jsstring) :
  (forall s, next_is_ws s -> K s = None) ->
  match tl with c :: _ => is_ws c = false | [] => True end ->
  forall sp fuel sn,
    Forall (fun c => is_ws c = true) sp ->
    length (sp ++ tl) < fuel ->
    star true (rmatch ws) fuel K (MState sn (sp ++ tl) cs) =
    K (MState (rev sp ++ sn) tl cs).
Proof.
  intros HK Htl sp. induction sp as [|c sp IH]; intros fuel sn Hsp Hf;
    (destruct fuel as [|f]; [lia|]); cbn [star].
  - simpl app. unfold ws. cbn [rmatch rest].
    destruct tl as [|c t]; [reflexivity|]. rewrite Htl. reflexivity.
  - inversion Hsp as [|? ? Hc Hsp']; subst.
    unfold ws at 1. cbn [rmatch rest app]. rewrite Hc. cbn [rest seen caps].
    assert (Hlt : (length (sp ++ tl) <? length (c :: sp ++ tl)) = true)
      by (apply Nat.ltb_lt; simpl; lia).
    rewrite Hlt. rewrite IH by (simpl in Hf; auto; lia).
    simpl rev. rewrite <- app_assoc. simpl.
    destruct (K (MState (rev sp ++ c :: sn) tl cs)) eqn:E; [reflexivity|].
    simpl. apply HK. simpl. exact Hc.
Qed.

Lemma rmatch_star_ws (K : cont) (cs : list (nat * jsstring))
  (sp tl sn : jsstring) :
  (forall s, next_is_ws s -> K s = None) ->
  match tl with c :: _ => is_ws c = false | [] => True end ->
  Forall (fun c => is_ws c = true) sp ->
  rmatch (Star true ws) K (MState sn (sp ++ tl) cs) =
  K (MState (rev sp ++ sn) tl cs).
Proof.
  intros HK Htl Hsp. cbn [rmatch rest].
  apply star_ws_run; [assumption | assumption | assumption | lia].
Qed.

Lemma star_any_none (K : cont) (cs : list (nat * jsstring)) (rs : jsstring) :
  forall fuel sn,
    (forall u v, rs = u ++ v -> K (MState (rev u ++ sn) v cs) = None) ->
    star true (rmatch anything) fuel K (MState sn rs cs) = None.
Proof.
  induction rs as [|c t IH]; intros fuel sn HK;
    (destruct fuel as [|f]; [exact (HK [] _ eq_refl)|]);
    cbn [star]; unfold anything at 1; cbn [rmatch rest].
  - exact (HK [] [] eq_refl).
  - rewrite orb_negb_r. cbn [rest seen caps].
    pose proof (HK [] (c :: t) eq_refl) as H0. simpl in H0. rewrite H0.
    destruct (length t <? length (c :: t)); [|reflexivity].
    rewrite IH; [reflexivity|].
    intros u v E. specialize (HK (c :: u) v). simpl in HK.
    rewrite <- app_assoc in HK. apply HK. rewrite E. reflexivity.
Qed.

(** Greedy [[\s\S]*] goes to the last place where what follows matches. *)
Lemma star_any_last (K : cont) (cs : list (nat * jsstring)) (v : jsstring)
  (x : mstate) :
  forall u fuel sn,
    length (u ++ v) < fuel ->
    K (MState (rev u ++ sn) v cs) = Some x ->
    (forall w v2, v = w ++ v2 -> w <> [] ->
                  K (MState (rev w ++ rev u ++ sn) v2 cs) = None) ->
    star true (rmatch anything) fuel K (MState sn (u ++ v) cs) = Some x.
Proof.
  induction u as [|c u IH]; intros fuel sn Hf Hx Hlater;
    (destruct fuel as [|f]; [lia|]); cbn [star]; unfold anything at 1;
    cbn [rmatch rest app].
  - simpl in Hx. destruct v as [|y t].
    + simpl. exact Hx.
    + rewrite orb_negb_r. cbn [rest seen caps].
      assert (Hn : star true (rmatch anything) f K (MState (y :: sn) t cs) = None).
      { apply star_any_none. intros u' v' E.
        specialize (Hlater (y :: u') v'). simpl in Hlater.
        rewrite <- app_assoc in Hlater. apply Hlater; [|discriminate].
        rewrite E. reflexivity. }
      rewrite Hn. destruct (length t <? length (y :: t)); simpl; exact Hx.
  - rewrite orb_negb_r. cbn [rest seen caps].
    assert (Hlt : (length (u ++ v) <? length (c :: u ++ v)) = true)
      by (apply Nat.ltb_lt; simpl; lia).
    rewrite Hlt. rewrite (IH f (c :: sn)); [reflexivity | simpl in Hf; lia | |].
    + simpl in Hx. rewrite <- app_assoc in Hx. exact Hx.
    + intros w v2 E Hw. specialize (Hlater w v2 E Hw).
      simpl in Hlater. rewrite <- !app_assoc in Hlater. simpl in Hlater.
      exact Hlater.
Qed.

Lemma rmatch_Lit (K : cont) (cs : list (nat * jsstring)) (l : jsstring) :
  forall sn tl,
    rmatch (Lit l) K (MState sn (l ++ tl) cs) = K (MState (rev l ++ sn) tl cs).
Proof.
  induction l as [|c l IH]; intros sn tl; cbn [Lit rmatch rest app].
  - reflexivity.
  - rewrite N.eqb_refl. cbn [seen caps]. rewrite IH.
    simpl. rewrite <- app_assoc. reflexivity.
Qed.

Lemma Lit_consumed (l : jsstring) :
  forall s s', denotes (Lit l) s s' -> rest s = l ++ rest s'.
Proof.
  induction l as [|c l IH]; intros s s' H; cbn [Lit denotes] in H.
  - subst. reflexivity.
  - destruct H as (s1 & (x & Hx & Hr & _) & H2). apply IH in H2.
    apply N.eqb_eq in Hx. subst x. rewrite Hr, H2. reflexivity.
Qed.

Lemma rmatch_Seq (a b : regex) (K : cont) (s : mstate) :
  rmatch (Seq a b) K s = rmatch a (rmatch b K) s.
Proof. reflexivity. Qed.

Lemma rmatch_Chr_ok (p : char -> bool) (K : cont) (sn t : jsstring)
  (cs : list (nat * jsstring)) (c : char) :
  p c = true ->
  rmatch (Chr p) K (MState sn (c :: t) cs) = K (MState (c :: sn) t cs).
Proof. intros H. cbn [rmatch rest]. rewrite H. reflexivity. Qed.

Lemma rmatch_Chr_ws (p : char -> bool) (K : cont) (s : mstate) :
  (forall c, is_ws c = true -> p c = false) ->
  next_is_ws s -> rmatch (Chr p) K s = None.
Proof.
  intros Hp Hs. cbn [rmatch]. unfold next_is_ws in Hs.
  destruct (rest s) as [|c t]; [reflexivity|]. rewrite (Hp c Hs). reflexivity.
Qed.

Lemma ws_is_not (k c : char) :
  is_ws k = false -> is_ws c = true -> N.eqb c k = false.
Proof.
  intros Hk Hc. destruct (N.eqb c k) eqn:E; [|reflexivity].
  apply N.eqb_eq in E. congruence.
Qed.

Lemma jsonTail_matches (sn sp post : jsstring) (cs : list (nat * jsstring)) :
  Forall (fun c => is_ws c = true) sp ->
  rmatch jsonTail Some (MState sn (125%N :: sp ++ 93%N :: post) cs) =
  Some (MState (93%N :: rev sp ++ 125%N :: sn) post cs).
Proof.
  intros Hsp. unfold jsonTail.
  rewrite rmatch_Seq, rmatch_Chr_ok by reflexivity.
  rewrite rmatch_Seq, rmatch_star_ws; [| | reflexivity | exact Hsp].
  - apply rmatch_Chr_ok. reflexivity.
  - intros s Hs. apply rmatch_Chr_ws; [|exact Hs].
    intros c Hc. apply ws_is_not; [reflexivity | exact Hc].
Qed.

Lemma jsonTail_needs (s : mstate) :
  rmatch jsonTail Some s <> None ->
  (exists t, rest s = 125%N :: t) /\ In 93%N (rest s).
Proof.
  destruct (rmatch jsonTail Some s) as [x|] eqn:E; [intros _ | congruence].
  apply rmatch_sound in E. destruct E as (s' & D & _).
  unfold jsonTail in D. cbn [denotes] in D.
  destruct D as (s1 & (c & Hc & Hr & _) & s2 & Hstar & (c' & Hc' & Hr' & _)).
  assert (D : denotes (Star true ws) s1 s2) by exact Hstar.
  apply denotes_text in D. destruct D as (w & Hw & _).
  unfold is_char in Hc, Hc'. apply N.eqb_eq in Hc, Hc'. subst c c'.
  split; [exists (rest s1); exact Hr|].
  rewrite Hr, Hw, Hr'. right. apply in_or_app. right. left. reflexivity.
Qed.

Lemma jsonTail_fails (s : mstate) :
  (forall t, rest s <> 125%N :: t) \/ ~ In 93%N (rest s) ->
  rmatch jsonTail Some s = None.
Proof.
  intros H. destruct (rmatch jsonTail Some s) as [x|] eqn:E; [|reflexivity].
  exfalso. destruct (@jsonTail_needs s) as ((t & Ht) & Hin); [congruence|].
  destruct H as [H | H]; [exact (H t Ht) | exact (H Hin)].
Qed.

(** The pattern run on its own text followed by text without a closing
    bracket: the match is exactly that text. *)
Lemma jsonRegex_run (sn sp1 sp2 body sp3 post : jsstring) :
  Forall (fun c => is_ws c = true) sp1 ->
  Forall (fun c => is_ws c = true) sp2 ->
  Forall (fun c => is_ws c = true) sp3 ->
  ~ In 93%N post ->
  rmatch jsonRegex Some
    (MState sn
       (91%N :: sp1 ++ 123%N :: sp2 ++ quoted "'question'" ++ body ++
        125%N :: sp3 ++ 93%N :: post) []) =
  Some (MState (93%N :: rev sp3 ++ 125%N :: rev body ++
                rev (quoted "'question'") ++ rev sp2 ++ 123%N :: rev sp1 ++
                91%N :: sn) post []).
Proof.
  intros H1 H2 H3 Hpost. unfold jsonRegex.
  rewrite rmatch_Seq, rmatch_Chr_ok by reflexivity.
  rewrite rmatch_Seq, rmatch_star_ws; [| | reflexivity | exact H1].
  2:{ intros s Hs. rewrite rmatch_Seq. apply rmatch_Chr_ws; [|exact Hs].
      intros c Hc. apply ws_is_not; [reflexivity | exact Hc]. }
  rewrite rmatch_Seq, rmatch_Chr_ok by reflexivity.
  rewrite rmatch_Seq, rmatch_star_ws; [| | reflexivity | exact H2].
  2:{ intros s Hs. rewrite rmatch_Seq.
      change (Lit (quoted "'question'"))
        with (Seq (Chr (N.eqb 34)) (Lit (lit "question" ++ [34%N]))).
      rewrite rmatch_Seq. apply rmatch_Chr_ws; [|exact Hs].
      intros c Hc. rewrite N.eqb_sym. apply ws_is_not; [reflexivity | exact Hc]. }
  rewrite rmatch_Seq, rmatch_Lit. rewrite rmatch_Seq.
  change (rmatch (Chr (is_char "}") ;; Star true ws ;; Chr (is_char "]"))%re Some)
    with (rmatch jsonTail Some).
  cbn [rmatch rest].
  apply star_any_last.
  - lia.
  - apply jsonTail_matches. exact H3.
  - intros [|y w] v2 E Hw; [congruence|]. clear Hw.
    injection E as <- E. apply jsonTail_fails. cbn [rest].
    apply app_eq_app in E. destruct E as (l & [(E1 & E2) | (E1 & E2)]).
    + left. intros t Ht. rewrite E2 in Ht. destruct l as [|c l].
      * discriminate.
      * injection Ht as -> _. rewrite E1 in H3.
        apply Forall_app in H3. destruct H3 as (_ & H3).
        apply Forall_inv in H3. discriminate.
    + destruct l as [|c l].
      * left. intros t Ht. simpl in E2. rewrite <- E2 in Ht. discriminate.
      * right. injection E2 as <- E2. intros Hin. apply Hpost.
        rewrite E2. apply in_or_app. right. exact Hin.
Qed.

(** A text that the pattern matches in full has the shape of the pattern. *)
Lemma jsonRegex_shape (array : jsstring) :
  option_map matched (regex_match jsonRegex array) = Some array ->
  exists sp1 sp2 body sp3,
    Forall (fun c => is_ws c = true) sp1 /\
    Forall (fun c => is_ws c = true) sp2 /\
    Forall (fun c => is_ws c = true) sp3 /\
    array = 91%N :: sp1 ++ 123%N :: sp2 ++ quoted "'question'" ++ body ++
            125%N :: sp3 ++ [93%N].
Proof.
  destruct (regex_match jsonRegex array) as [m|] eqn:E; [|discriminate].
  intros H. injection H as Hm.
  pose proof (@search_from_whole jsonRegex array [] m E) as Hw. simpl in Hw.
  apply search_from_sound in E. destruct E as (_ & D).
  pose proof (denotes_text _ _ _ D) as (w & Rw & _).
  unfold matched in Hm. rewrite (@consumed_app _ _ _ Rw) in Hm. subst w.
  assert (Hend : rest (snd m) = []).
  { apply (f_equal (@length char)) in Hw. rewrite Rw in Hw.
    rewrite !length_app in Hw. destruct (rest (snd m)); [reflexivity|].
    simpl in Hw. lia. }
  rewrite Hend, app_nil_r in Rw.
  unfold jsonRegex in D. cbn [denotes] in D.
  destruct D as (s1 & (c1 & P1 & R1 & _) & s2 & St1 & s3 & (c2 & P2 & R2 & _) &
                 s4 & St2 & s5 & HQ & s6 & St3 & s7 & (c3 & P3 & R3 & _) &
                 s8 & St4 & (c4 & P4 & R4 & _)).
  destruct (@star_chr_consumed true is_ws s1 s2 St1) as (sp1 & E1 & F1 & _).
  destruct (@star_chr_consumed true is_ws s3 s4 St2) as (sp2 & E2 & F2 & _).
  destruct (@star_chr_consumed true is_ws s7 s8 St4) as (sp3 & E4 & F4 & _).
  assert (DQ : denotes (Lit (quoted "'question'")) s4 s5) by exact HQ.
  apply Lit_consumed in DQ.
  assert (D3 : denotes (Star true anything) s5 s6) by exact St3.
  apply denotes_text in D3. destruct D3 as (body & E3 & _).
  unfold is_char in P1, P2, P3, P4.
  apply N.eqb_eq in P1, P2, P3, P4. subst c1 c2 c3 c4.
  exists sp1, sp2, body, sp3. repeat (split; [assumption|]).
  rewrite <- Rw, R1, E1, R2, E2, DQ, E3, R3, E4, R4, Hend. reflexivity.
Qed.

Lemma search_from_no_bracket (before : jsstring) :
  forall sn rs,
    ~ In 91%N before ->
    search_from jsonRegex sn (before ++ rs) =
    search_from jsonRegex (rev before ++ sn) rs.
Proof.
  induction before as [|c before IH]; intros sn rs H; [reflexivity|].
  cbn [app search_from].
  assert (Hc : match_at jsonRegex sn (c :: before ++ rs) = None).
  { unfold match_at, jsonRegex. cbn [rmatch rest]. unfold is_char.
    destruct (N.eqb c (N_of_ascii "[")) eqn:E; [|reflexivity].
    apply N.eqb_eq in E. exfalso. apply H. left. rewrite E. reflexivity. }
  rewrite Hc, IH by (intros Hin; apply H; right; exact Hin).
  simpl. rewrite <- app_assoc. reflexivity.
Qed.

(** In prose without an opening bracket before it and without a closing
    bracket after it, the pattern locates exactly the array. *)
Lemma jsonRegex_locates (before array after : jsstring) :
  ~ In 91%N before -> ~ In 93%N after ->
  option_map matched (regex_match jsonRegex array) = Some array ->
  option_map matched (regex_match jsonRegex (before ++ array ++ after)) =
  Some array.
Proof.
  intros Hb Ha Hs.
  destruct (@jsonRegex_shape array Hs) as (sp1 & sp2 & body & sp3 & F1 & F2 & F3 & E).
  unfold regex_match. rewrite search_from_no_bracket by exact Hb.
  pose proof (@jsonRegex_run (rev before ++ []) sp1 sp2 body sp3 after
                F1 F2 F3 Ha) as Hrun.
  assert (Htext : array ++ after =
                  91%N :: sp1 ++ 123%N :: sp2 ++ quoted "'question'" ++ body ++
                  125%N :: sp3 ++ 93%N :: after).
  { rewrite E. repeat (rewrite <- app_comm_cons || rewrite <- app_assoc).
    reflexivity. }
  rewrite Htext. cbn [search_from]. unfold match_at.
  match goal with
  | |- context [rmatch jsonRegex Some ?st] =>
      replace (rmatch jsonRegex Some st) with
        (Some (MState (93%N :: rev sp3 ++ 125%N :: rev body ++
                       rev (quoted "'question'") ++ rev sp2 ++
                       123%N :: rev sp1 ++ 91%N :: rev before ++ [])
                      after []))
        by (symmetry; exact Hrun)
  end.
  cbn [option_map]. f_equal. unfold matched. cbn [fst snd].
  apply consumed_app. cbn [rest]. rewrite <- Htext. reflexivity.
Qed.

(** X14.  An array in prose.  When the input is an array that the pattern
    matches in full and that [JSON.parse] accepts, preceded by text without
    an opening bracket and followed by text without a closing bracket, the
    pattern locates exactly the array: the function returns its first ten
    elements, as parsed, when it has at least ten, and goes on with the
    structured-text tier when it has fewer. *)
Theorem json_array_in_prose (toLowerCase : jsstring -> jsstring)
  (random : nat -> nat) (before array after : jsstring)
  (parsed : list json) (n : nat) :
  ~ In 91%N before -> ~ In 93%N after ->
  option_map matched (regex_match jsonRegex array) = Some array ->
  JSON_parse array = Some (JArr parsed) ->
  (10 <= length parsed ->
   parseMCQQuestions toLowerCase random (before ++ array ++ after) n =
   (firstn 10 parsed, n)) /\
  (length parsed < 10 ->
   parseMCQQuestions toLowerCase random (before ++ array ++ after) n =
   structuredTier toLowerCase random (before ++ array ++ after) n).
Proof.
  intros Hb Ha Hs Hp.
  pose proof (@jsonRegex_locates before array after Hb Ha Hs) as Hl.
  destruct (regex_match jsonRegex (before ++ array ++ after)) as [m|] eqn:Hm;
    [|discriminate].
  cbn [option_map] in Hl. injection Hl as Hl.
  split; intros Hlen.
  - apply parse_when_json_returns. unfold jsonTier. rewrite Hm, Hl, Hp.
    apply Nat.leb_le in Hlen. rewrite Hlen, slice_0. reflexivity.
  - apply parse_when_json_falls_through. unfold jsonTier. rewrite Hm, Hl, Hp.
    destruct (10 <=? length parsed) eqn:E; [|reflexivity].
    apply Nat.leb_le in E. lia.
Qed.

Lemma json_array_in_prose_witness :
  parseMCQQuestions asciiLowerCase zeros
    (lit "Here are the questions: " ++ eleven_array ++ lit " Good luck!") 0 =
  (firstn 10 eleven_parsed, 0).
Proof.
  apply (@json_array_in_prose asciiLowerCase zeros
           (lit "Here are the questions: ") eleven_array (lit " Good luck!")
           eleven_parsed 0).
  - vm_compute. intuition discriminate.
  - vm_compute. intuition discriminate.
  - vm_compute. reflexivity.
  - vm_compute. reflexivity.
  - vm_compute. repeat constructor.
Defined.
